(** * generate-midi.py: the calm loop score and its MIDI container

    A shallow embedding of [scripts/generate-midi.py].  The script builds a
    [MidiFile] holding four [MidiTrack] objects and saves it.  Tracks are
    Python objects that are appended to [mid.tracks] first and filled
    afterwards, so the embedding keeps an object heap and lets [mid.tracks]
    hold references.  Exceptions are threaded through an error-and-state
    monad; the file system is an explicit map from paths to byte strings. *)

From Stdlib Require Import ZArith Lia.
From stdpp Require Import gmap strings list.

Local Open Scope Z_scope.

(** ** Messages *)

(** The error kinds of the specification (section 7), and the two ways a
    Python container access can fail in the script. *)
Inductive ErrorKind : Type :=
  | InvalidConfiguration
  | InvalidRange
  | IOError
  | IndexError
  | BadReference.

Inductive Result (A : Type) : Type :=
  | Ok (a : A)
  | Err (e : ErrorKind).
Arguments Ok {A} a.
Arguments Err {A} e.

(** [Message] and [MetaMessage] values.  Every message carries [time], the
    delta in ticks since the previous message of its track.  The channel is
    never given by the script and stays at its default, 0. *)
Inductive Message : Type :=
  | program_change (program time : Z)
  | note_on (note velocity time : Z)
  | note_off (note velocity time : Z)
  | set_tempo (tempo time : Z).

Definition msg_time (m : Message) : Z :=
  match m with
  | program_change _ t => t
  | note_on _ _ t => t
  | note_off _ _ t => t
  | set_tempo _ t => t
  end.

Definition is_data_byte (v : Z) : bool := (0 <=? v) && (v <=? 127).

(** Modelled from the spec: the range checks of the message constructors of
    the [mido] package, which is not part of the repository.  Section 7 names
    the failure for a pitch, velocity or instrument id outside the bounds of
    the format [InvalidRange]. *)
Definition check_data_byte (v : Z) : Result unit :=
  if is_data_byte v then Ok tt else Err InvalidRange.

(** Modelled from the spec: [Message('program_change', program=p, time=t)]. *)
Definition Message_program_change (program time : Z) : Result Message :=
  match check_data_byte program with
  | Ok _ => Ok (program_change program time)
  | Err e => Err e
  end.

(** Modelled from the spec: [Message('note_on', note=n, velocity=v, time=t)]. *)
Definition Message_note_on (note velocity time : Z) : Result Message :=
  match check_data_byte note, check_data_byte velocity with
  | Ok _, Ok _ => Ok (note_on note velocity time)
  | Err e, _ => Err e
  | _, Err e => Err e
  end.

(** Modelled from the spec: [Message('note_off', note=n, velocity=v, time=t)]. *)
Definition Message_note_off (note velocity time : Z) : Result Message :=
  match check_data_byte note, check_data_byte velocity with
  | Ok _, Ok _ => Ok (note_off note velocity time)
  | Err e, _ => Err e
  | _, Err e => Err e
  end.

(** Modelled from the spec: [MetaMessage('set_tempo', tempo=us)]; the delta
    time is not given and is 0.  A non-positive tempo is
    [InvalidConfiguration] (section 7).  The format holds a tempo in three
    bytes and nothing is clamped (section 7): a tempo of 2^24 or more is
    outside the bounds of the format and is refused with [InvalidRange]. *)
Definition MetaMessage_set_tempo (tempo : Z) : Result Message :=
  if 0 <? tempo then
    if tempo <? 2 ^ 24 then Ok (set_tempo tempo 0) else Err InvalidRange
  else Err InvalidConfiguration.

(** ** The object heap *)

Definition loc : Type := nat.

Definition MidiTrack : Type := list Message.

Record MidiFile : Type := mkMidiFile {
  ticks_per_beat : Z;
  tracks : list loc
}.

Record Heap : Type := mkHeap {
  track_objs : gmap nat (list Message);
  file_objs : gmap nat MidiFile
}.

Definition empty_heap : Heap := mkHeap ∅ ∅.

(** Statements run on the heap and either return or raise; the heap reached
    when an exception is raised is kept. *)
Definition H (A : Type) : Type := Heap -> Result A * Heap.

Definition ret {A} (a : A) : H A := fun h => (Ok a, h).

Definition raise {A} (e : ErrorKind) : H A := fun h => (Err e, h).

Definition bind {A B} (m : H A) (k : A -> H B) : H B :=
  fun h =>
    match m h with
    | (Ok a, h') => k a h'
    | (Err e, h') => (Err e, h')
    end.

Definition lift {A} (r : Result A) : H A := fun h => (r, h).

#[global] Instance H_ret : MRet H := @ret.
#[global] Instance H_bind : MBind H := fun A B k m => bind m k.

(** [for x in xs: body] *)
Fixpoint for_each {A} (xs : list A) (body : A -> H unit) : H unit :=
  match xs with
  | [] => ret tt
  | x :: xs' => body x;; for_each xs' body
  end.

(** [xs[i]] *)
Definition index {A} (xs : list A) (i : nat) : H A :=
  match xs !! i with
  | Some x => ret x
  | None => raise IndexError
  end.

(** Modelled from the spec: [MidiFile(ticks_per_beat=n)] allocates a file
    object with no track; section 4.1 makes a non-positive resolution
    [InvalidConfiguration]. *)
Definition MidiFile_new (tpb : Z) : H loc :=
  fun h =>
    if 0 <? tpb then
      let l := fresh (dom (file_objs h)) in
      (Ok l, mkHeap (track_objs h) (<[l := mkMidiFile tpb []]> (file_objs h)))
    else (Err InvalidConfiguration, h).

(** [MidiTrack()] *)
Definition MidiTrack_new : H loc :=
  fun h =>
    let l := fresh (dom (track_objs h)) in
    (Ok l, mkHeap (<[l := []]> (track_objs h)) (file_objs h)).

(** [mid.tracks.append(t)]: the list of the file object gets the reference,
    not a copy of the track. *)
Definition tracks_append (mid t : loc) : H unit :=
  fun h =>
    match file_objs h !! mid with
    | Some f =>
        (Ok tt,
         mkHeap (track_objs h)
                (<[mid := mkMidiFile (ticks_per_beat f) (tracks f ++ [t])]>
                   (file_objs h)))
    | None => (Err BadReference, h)
    end.

(** [t.append(msg)] *)
Definition track_append (t : loc) (msg : Message) : H unit :=
  fun h =>
    match track_objs h !! t with
    | Some evs =>
        (Ok tt, mkHeap (<[t := evs ++ [msg]]> (track_objs h)) (file_objs h))
    | None => (Err BadReference, h)
    end.

(** ** The score *)

(** The constants that section 6 of the specification lists as the
    configuration of the script. *)
Record Config : Type := mkConfig {
  ticksPerBeat : Z;
  tempoMicrosecondsPerBeat : Z;
  pad_program : Z;
  melody_program : Z;
  arp_program : Z;
  pad_velocity : Z;
  melody_velocity : Z;
  arp_velocity : Z
}.

(** The literals of the script. *)
Definition script_config : Config :=
  mkConfig 480 666667 90 73 46 40 55 35.

Definition pad_chords : list (list Z) :=
  [ [62; 65; 69];
    [60; 64; 67];
    [55; 59; 62];
    [57; 60; 64] ].

Definition phrase_a : list Z := [69; 71; 72; 71; 69; 67; 65; 67].
Definition phrase_b : list Z := [72; 74; 76; 74; 72; 71; 69; 67].
Definition phrase_c : list Z := [67; 69; 71; 72; 71; 69; 67; 65].

Definition arp_patterns : list (list Z) :=
  [ [62; 65; 69; 74];
    [60; 64; 67; 72];
    [55; 59; 62; 67];
    [57; 60; 64; 69] ].

(** [enumerate(xs)] *)
Definition enumerate {A} (xs : list A) : list (nat * A) :=
  imap (fun i x => (i, x)) xs.

(** [xs * n] *)
Fixpoint repeat_list {A} (xs : list A) (n : nat) : list A :=
  match n with
  | O => []
  | S n' => xs ++ repeat_list xs n'
  end.

Section Script.
Variable c : Config.

(** Lines 23-27, the body of the loop over the chords. *)
Definition pad_chord (pad : loc) (chord : list Z) : H unit :=
  for_each chord (fun note =>
    m ← lift (Message_note_on note (pad_velocity c) 0);
    track_append pad m);;
  n0 ← index chord 0;
  m0 ← lift (Message_note_off n0 0 960);
  track_append pad m0;;
  n1 ← index chord 1;
  m1 ← lift (Message_note_off n1 0 0);
  track_append pad m1;;
  n2 ← index chord 2;
  m2 ← lift (Message_note_off n2 0 0);
  track_append pad m2.

(** Lines 40-42, the body of the loop over the notes of a phrase. *)
Definition melody_note (melody : loc) (p : nat * Z) : H unit :=
  let '(i, note) := p in
  let duration := if (Z.of_nat i mod 4 =? 3) then 960 else 480 in
  m ← lift (Message_note_on note (melody_velocity c) 0);
  track_append melody m;;
  m' ← lift (Message_note_off note 0 duration);
  track_append melody m'.

(** Lines 58-59, the body of the loop over the notes of a pattern. *)
Definition arp_note (arp : loc) (note : Z) : H unit :=
  m ← lift (Message_note_on note (arp_velocity c) 0);
  track_append arp m;;
  m' ← lift (Message_note_off note 0 240);
  track_append arp m'.

(** Lines 3-59: the sequence is built in memory; the result is [mid]. *)
Definition build : H loc :=
  mid ← MidiFile_new (ticksPerBeat c);
  (* Tempo track *)
  tempo_track ← MidiTrack_new;
  tracks_append mid tempo_track;;
  m ← lift (MetaMessage_set_tempo (tempoMicrosecondsPerBeat c));
  track_append tempo_track m;;
  (* Soft pad track *)
  pad ← MidiTrack_new;
  tracks_append mid pad;;
  m ← lift (Message_program_change (pad_program c) 0);
  track_append pad m;;
  for_each (repeat_list pad_chords 2) (pad_chord pad);;
  (* Gentle melody track *)
  melody ← MidiTrack_new;
  tracks_append mid melody;;
  m ← lift (Message_program_change (melody_program c) 0);
  track_append melody m;;
  for_each [phrase_a; phrase_b; phrase_a; phrase_c] (fun phrase =>
    for_each (enumerate phrase) (melody_note melody));;
  (* Soft harp-like arpeggios *)
  arp ← MidiTrack_new;
  tracks_append mid arp;;
  m ← lift (Message_program_change (arp_program c) 0);
  track_append arp m;;
  for_each (repeat_list arp_patterns 4) (fun pattern =>
    for_each pattern (arp_note arp));;
  ret mid.
End Script.

(** The tracks of a file object, in the order of [mid.tracks], each read
    through its reference. *)
Definition tracks_of (h : Heap) (mid : loc) : option (list (list Message)) :=
  f ← file_objs h !! mid;
  mapM (fun t => track_objs h !! t) (tracks f).

(** ** The container format *)

(** Modelled from the spec: the writer of the [mido] package, which is not
    part of the repository.  Section 6 fixes the layout as that of the
    target format: a header chunk with the time resolution, then one chunk
    per track, in order, each event preceded by its delta time as a
    variable-length quantity.  Bytes are integers in 0..255. *)
Definition MThd : list Z := [77; 84; 104; 100].
Definition MTrk : list Z := [77; 84; 114; 107].

(** The [n] low bytes of [v], most significant first. *)
Fixpoint be_bytes (n : nat) (v : Z) : list Z :=
  match n with
  | O => []
  | S n' => be_bytes n' (Z.shiftr v 8) ++ [Z.land v 255]
  end.

Definition be_value (bs : list Z) : Z :=
  fold_left (fun acc b => Z.lor (Z.shiftl acc 8) b) bs 0.

(** The groups of seven bits of [value], least significant first. *)
Fixpoint septets (fuel : nat) (value : Z) : list Z :=
  match fuel with
  | O => []
  | S fuel' =>
      if value <=? 0 then []
      else Z.land value 127 :: septets fuel' (Z.shiftr value 7)
  end.

(** Every byte but the last one gets the continuation bit. *)
Fixpoint mark_continuation (bs : list Z) : list Z :=
  match bs with
  | [] => []
  | [b] => [b]
  | b :: bs' => Z.lor b 128 :: mark_continuation bs'
  end.

(** Modelled from the spec: the variable-length delta-time encoding.  A
    value below 1 is written as the single byte 0; the delta times of the
    script are never negative. *)
Definition encode_variable_int (value : Z) : list Z :=
  match rev (septets (S (Z.to_nat (Z.log2 value))) value) with
  | [] => [0]
  | bs => mark_continuation bs
  end.

(** Modelled from the spec: the reader of a variable-length quantity; it
    returns the value and the bytes that follow it. *)
Fixpoint read_variable_int (delta : Z) (bs : list Z) : option (Z * list Z) :=
  match bs with
  | [] => None
  | b :: bs' =>
      let delta' := Z.lor (Z.shiftl delta 7) (Z.land b 127) in
      if b <? 128 then Some (delta', bs') else read_variable_int delta' bs'
  end.

Definition is_meta (m : Message) : bool :=
  match m with
  | set_tempo _ _ => true
  | _ => false
  end.

(** Modelled from the spec: the bytes of one event without its delta time;
    a channel event starts with its status byte (channel 0), a tempo event
    is the meta event 0x51 with three data bytes. *)
Definition msg_bytes (m : Message) : list Z :=
  match m with
  | program_change p _ => [192; p]
  | note_on n v _ => [144; n; v]
  | note_off n v _ => [128; n; v]
  | set_tempo us _ => [255; 81] ++ encode_variable_int 3 ++ be_bytes 3 us
  end.

(** Modelled from the spec: the events of a track in list order; a channel
    event whose status byte repeats the previous one is written without
    it (running status), and a meta event ends the run. *)
Fixpoint write_events (running : option Z) (msgs : list Message) : list Z :=
  match msgs with
  | [] => []
  | m :: msgs' =>
      let bytes := msg_bytes m in
      encode_variable_int (msg_time m) ++
      (if is_meta m then bytes ++ write_events None msgs'
       else
         match bytes with
         | status :: data =>
             (if decide (running = Some status) then data else bytes) ++
             write_events (Some status) msgs'
         | [] => write_events running msgs'
         end)
  end.

(** The end-of-track meta event that closes every track chunk, at delta 0. *)
Definition end_of_track : list Z := [0; 255; 47; 0].

Definition write_chunk (name data : list Z) : list Z :=
  name ++ be_bytes 4 (Z.of_nat (length data)) ++ data.

Definition write_track (track : list Message) : list Z :=
  write_chunk MTrk (write_events None track ++ end_of_track).

(** Modelled from the spec: [serialize]; the header holds the format type
    (1: parallel tracks on one time base), the number of tracks and the
    ticks per beat, two bytes each. *)
Definition serialize (tpb : Z) (trks : list (list Message)) : list Z :=
  write_chunk MThd
    (be_bytes 2 1 ++ be_bytes 2 (Z.of_nat (length trks)) ++ be_bytes 2 tpb) ++
  concat (write_track <$> trks).

(** *** Decoding *)

Definition read_chunk (bs : list Z) : option (list Z * list Z * list Z) :=
  let size := Z.to_nat (be_value (take 4 (drop 4 bs))) in
  let data := take size (drop 8 bs) in
  if decide (length (take 4 bs) = 4%nat ∧ length (take 4 (drop 4 bs)) = 4%nat
             ∧ length data = size)
  then Some (take 4 bs, data, drop size (drop 8 bs))
  else None.

(** One channel event with status byte [status], read from [bs]. *)
Definition read_message (status delta : Z) (bs : list Z)
  : option (Message * list Z) :=
  if status =? 144 then
    match bs with
    | n :: v :: rest => Some (note_on n v delta, rest)
    | _ => None
    end
  else if status =? 128 then
    match bs with
    | n :: v :: rest => Some (note_off n v delta, rest)
    | _ => None
    end
  else if status =? 192 then
    match bs with
    | p :: rest => Some (program_change p delta, rest)
    | _ => None
    end
  else None.

(** The events of a track chunk, up to the end-of-track event; the result
    holds the events and the delta time of the end-of-track event. *)
Fixpoint read_events (fuel : nat) (running : option Z) (bs : list Z)
  : option (list Message * Z) :=
  match fuel with
  | O => None
  | S fuel' =>
      '(delta, bs1) ← read_variable_int 0 bs;
      match bs1 with
      | [] => None
      | b :: bs2 =>
          if b =? 255 then
            match bs2 with
            | [] => None
            | ty :: bs3 =>
                '(len, bs4) ← read_variable_int 0 bs3;
                let data := take (Z.to_nat len) bs4 in
                let rest := drop (Z.to_nat len) bs4 in
                if ty =? 47 then
                  match data, rest with
                  | [], [] => Some ([], delta)
                  | _, _ => None
                  end
                else if (ty =? 81) && (len =? 3)
                        && (Nat.eqb (length data) 3) then
                  '(evs, d) ← read_events fuel' None rest;
                  Some (set_tempo (be_value data) delta :: evs, d)
                else None
            end
          else
            '(status, body) ← (if b <? 128
                               then s ← running; Some (s, bs1)
                               else Some (b, bs2));
            '(m, rest) ← read_message status delta body;
            '(evs, d) ← read_events fuel' (Some status) rest;
            Some (m :: evs, d)
      end
  end.

Definition read_track (data : list Z) : option (list Message * Z) :=
  read_events (length data) None data.

(** [n] track chunks. *)
Fixpoint read_tracks (n : nat) (bs : list Z)
  : option (list (list Message * Z) * list Z) :=
  match n with
  | O => Some ([], bs)
  | S n' =>
      '(name, data, rest) ← read_chunk bs;
      if decide (name = MTrk) then
        t ← read_track data;
        '(ts, rest') ← read_tracks n' rest;
        Some (t :: ts, rest')
      else None
  end.

Record Decoded : Type := mkDecoded {
  dec_type : Z;
  dec_ticks_per_beat : Z;
  dec_tracks : list (list Message * Z)
}.

(** Modelled from the spec: the decoder of a whole file. *)
Definition decode (bs : list Z) : option Decoded :=
  '(name, data, rest) ← read_chunk bs;
  if decide (name = MThd ∧ length data = 6%nat) then
    '(ts, rest') ← read_tracks (Z.to_nat (be_value (take 2 (drop 2 data)))) rest;
    match rest' with
    | [] => Some (mkDecoded (be_value (take 2 data))
                            (be_value (drop 4 data)) ts)
    | _ => None
    end
  else None.

(** One serialized track chunk, decoded on its own. *)
Definition decode_track (bs : list Z) : option (list Message * Z) :=
  '(name, data, rest) ← read_chunk bs;
  if decide (name = MTrk ∧ rest = []) then read_track data else None.

(** ** Saving *)

Definition file_path : string := "calm_spheric_loop.mid".

(** The delta times of the tracks are not negative. *)
Definition deltas_writable (trks : list (list Message)) : bool :=
  forallb (forallb (fun m => 0 <=? msg_time m)) trks.

(** Modelled from the spec: [mid.save(path)] writes the serialized sequence
    at [path].  Nothing is clamped (section 7): a resolution that does not
    fit the fifteen bits of the header, or a negative delta time, is outside
    the bounds of the format; it is refused with [InvalidRange] and nothing
    is written.  The disk of the model takes every write: a destination that
    cannot be written and the other failures of the file system ([IOError])
    are not modelled, and no statement below is about them. *)
Definition MidiFile_save (h : Heap) (mid : loc) (path : string)
  (disk : gmap string (list Z)) : Result unit * gmap string (list Z) :=
  match file_objs h !! mid, tracks_of h mid with
  | Some f, Some trks =>
      if (ticks_per_beat f <? 2 ^ 15) && deltas_writable trks
      then (Ok tt, <[path := serialize (ticks_per_beat f) trks]> disk)
      else (Err InvalidRange, disk)
  | _, _ => (Err BadReference, disk)
  end.

(** The whole script, run by a fresh interpreter on the files of [disk]. *)
Definition generate_midi (c : Config) (disk : gmap string (list Z))
  : Result unit * gmap string (list Z) :=
  match build c empty_heap with
  | (Ok mid, h) => MidiFile_save h mid file_path disk
  | (Err e, _) => (Err e, disk)
  end.

(** The tracks of the sequence that the script builds, in the order of
    [mid.tracks]. *)
Definition built_tracks (c : Config) : option (list (list Message)) :=
  match build c empty_heap with
  | (Ok mid, h) => tracks_of h mid
  | (Err _, _) => None
  end.

(** ** What the specification says of the tracks *)

(** The sum of the delta times of a track. *)
Definition sum_deltas (track : list Message) : Z :=
  foldr (fun m acc => msg_time m + acc) 0 track.

(** The clock of a track starts at 0 and every event moves it by its delta
    time; the duration of the track is the clock after its last event. *)
Definition track_duration (track : list Message) : Z :=
  fold_left (fun clock m => clock + msg_time m) track 0.

(** [emitNote] as section 4.1 words it: a NoteOn at delta 0, then a NoteOff
    after [durationTicks]. *)
Definition emitNote_spec (pitch velocity durationTicks : Z) : list Message :=
  [note_on pitch velocity 0; note_off pitch 0 durationTicks].

(** [emitChord] as section 4.1 words it: one NoteOn per pitch at delta 0,
    then one NoteOff per pitch, the first of them after [durationTicks] and
    the others at delta 0. *)
Definition emitChord_spec (pitches : list Z) (velocity durationTicks : Z)
  : list Message :=
  ((fun p => note_on p velocity 0) <$> pitches) ++
  match pitches with
  | [] => []
  | p :: ps => note_off p 0 durationTicks :: ((fun q => note_off q 0 0) <$> ps)
  end.

Definition control_events : list Message := [set_tempo 666667 0].

Definition pad_events : list Message :=
  program_change 90 0 ::
  concat ((fun chord => emitChord_spec chord 40 960) <$> repeat_list pad_chords 2).

Definition phrase_events (phrase : list Z) : list Message :=
  concat (imap (fun i note =>
                  emitNote_spec note 55
                    (if Z.of_nat i mod 4 =? 3 then 960 else 480)) phrase).

Definition melody_events : list Message :=
  program_change 73 0 ::
  concat (phrase_events <$> [phrase_a; phrase_b; phrase_a; phrase_c]).

Definition arp_events : list Message :=
  program_change 46 0 ::
  concat ((fun pattern => concat ((fun n => emitNote_spec n 35 240) <$> pattern))
            <$> repeat_list arp_patterns 4).

(** *** Held notes *)

(** One event seen by a player that keeps the set of the pitches that are
    on: a NoteOn of a pitch that is on, or a NoteOff of one that is off,
    stops it. *)
Definition note_step (held : gset Z) (m : Message) : option (gset Z) :=
  match m with
  | note_on n _ _ => if decide (n ∈ held) then None else Some ({[n]} ∪ held)
  | note_off n _ _ => if decide (n ∈ held) then Some (held ∖ {[n]}) else None
  | _ => Some held
  end.

Fixpoint run_notes (held : gset Z) (track : list Message) : option (gset Z) :=
  match track with
  | [] => Some held
  | m :: track' => held' ← note_step held m; run_notes held' track'
  end.

(** Every NoteOn is followed, later on the track, by a NoteOff of its
    pitch. *)
Definition every_note_closed (track : list Message) : Prop :=
  ∀ pre n v t post,
    track = pre ++ note_on n v t :: post →
    ∃ v' t', note_off n v' t' ∈ post.

(** Between two NoteOns of one pitch there is a NoteOff of that pitch, so
    a pitch is never on twice. *)
Definition never_open_twice (track : list Message) : Prop :=
  ∀ pre n v t mid v2 t2 post,
    track = pre ++ note_on n v t :: mid ++ note_on n v2 t2 :: post →
    ∃ v' t', note_off n v' t' ∈ mid.

Definition well_formed (track : list Message) : Prop :=
  every_note_closed track ∧ never_open_twice track ∧
  run_notes ∅ track = Some ∅.

(** *** Bounds *)

Definition msg_in_bounds (m : Message) : bool :=
  match m with
  | program_change p t => is_data_byte p && (0 <=? t)
  | note_on n v t => is_data_byte n && is_data_byte v && (0 <=? t)
  | note_off n v t => is_data_byte n && is_data_byte v && (0 <=? t)
  | set_tempo us t => (0 <? us) && (0 <=? t)
  end.

(** The constants of one musical track: its program, the velocity of its
    NoteOns, the velocity 0 of its NoteOffs, and the range of the pitches
    of the score. *)
Definition track_constants (program velocity : Z) (m : Message) : Prop :=
  match m with
  | program_change p _ => p = program ∧ 0 <= p <= 127
  | note_on n v _ => 55 <= n <= 76 ∧ v = velocity ∧ 0 <= v <= 127
  | note_off n v _ => 55 <= n <= 76 ∧ v = 0
  | set_tempo _ _ => False
  end.

#[global] Instance track_constants_dec (program velocity : Z) (m : Message) :
  Decision (track_constants program velocity m).
Proof. destruct m; cbn; apply _. Defined.

(** The events that the container can hold: a delta time that is not
    negative, data bytes of seven bits, a tempo of three bytes. *)
Definition valid_msg (m : Message) : Prop :=
  0 <= msg_time m ∧
  match m with
  | program_change p _ => 0 <= p < 128
  | note_on n v _ => 0 <= n < 128 ∧ 0 <= v < 128
  | note_off n v _ => 0 <= n < 128 ∧ 0 <= v < 128
  | set_tempo us _ => 0 <= us < 2 ^ 24
  end.

#[global] Instance valid_msg_dec (m : Message) : Decision (valid_msg m).
Proof. unfold valid_msg. destruct m; apply _. Defined.

(** A track whose events the container can hold and whose chunk has a
    length of four bytes. *)
Definition track_fits (track : list Message) : Prop :=
  Forall valid_msg track
  ∧ Z.of_nat (length (write_events None track ++ end_of_track)) < 2 ^ 32.

(** The script with the program of one track replaced. *)
Definition with_pad_program (p : Z) (c : Config) : Config :=
  mkConfig (ticksPerBeat c) (tempoMicrosecondsPerBeat c)
    p (melody_program c) (arp_program c)
    (pad_velocity c) (melody_velocity c) (arp_velocity c).

Definition with_melody_program (p : Z) (c : Config) : Config :=
  mkConfig (ticksPerBeat c) (tempoMicrosecondsPerBeat c)
    (pad_program c) p (arp_program c)
    (pad_velocity c) (melody_velocity c) (arp_velocity c).

Definition with_arp_program (p : Z) (c : Config) : Config :=
  mkConfig (ticksPerBeat c) (tempoMicrosecondsPerBeat c)
    (pad_program c) (melody_program c) p
    (pad_velocity c) (melody_velocity c) (arp_velocity c).

(** The bytes that the script writes. *)
Definition script_bytes : list Z :=
  serialize 480 [control_events; pad_events; melody_events; arp_events].

(** A heap with one empty track object, at reference 0. *)
(** The heap after the events of track object [t] are replaced. *)
Definition put_track (h : Heap) (t : loc) (evs : list Message) : Heap :=
  mkHeap (<[t := evs]> (track_objs h)) (file_objs h).

(** A heap with one empty track object, at reference 0. *)
Definition one_track_heap : Heap := put_track empty_heap 0%nat [].

(** ** The loops on other scores *)

(** The events that lines 23-27 append for a chord of any length: a NoteOn
    for every pitch, then the NoteOffs of [chord[0]], [chord[1]] and
    [chord[2]], as far as the chord has them. *)
Definition pad_chord_events (velocity : Z) (chord : list Z) : list Message :=
  ((fun n => note_on n velocity 0) <$> chord) ++
  zip_with (fun n d => note_off n 0 d) chord [960; 0; 0].

(** The outcome of lines 23-27: [chord[k]] raises when the chord is short. *)
Definition pad_chord_result (chord : list Z) : Result unit :=
  if decide (3 <= length chord)%nat then Ok tt else Err IndexError.

(** Line 40. *)
Definition melody_duration (i : nat) : Z :=
  if Z.of_nat i mod 4 =? 3 then 960 else 480.

(** The events that lines 39-42 append for a phrase. *)
Definition melody_phrase_events (velocity : Z) (phrase : list Z)
  : list Message :=
  concat ((fun p : nat * Z =>
             emitNote_spec p.2 velocity (melody_duration p.1))
            <$> enumerate phrase).

(** The events that lines 57-59 append for a pattern. *)
Definition arp_pattern_events (velocity : Z) (pattern : list Z)
  : list Message :=
  concat ((fun n => emitNote_spec n velocity 240) <$> pattern).

(** The tick of every event of a track that starts at [clock]. *)
Fixpoint abs_times (clock : Z) (track : list Message) : list Z :=
  match track with
  | [] => []
  | m :: track' =>
      (clock + msg_time m) :: abs_times (clock + msg_time m) track'
  end.

(** At no point of the track are two pitches on together. *)
Definition monophonic (track : list Message) : Prop :=
  ∀ pre, pre `prefix_of` track →
    ∃ held, run_notes ∅ pre = Some held ∧ (size held <= 1)%nat.

(** A heap with one file object whose [tracks] holds the reference of one
    empty track object. *)
Definition one_file_heap : Heap :=
  mkHeap {[ 0%nat := [] ]} {[ 0%nat := mkMidiFile 480 [0%nat] ]}.

(** ** The in-memory sequence *)

Lemma build_script :
  ∃ mid h,
    build script_config empty_heap = (Ok mid, h) ∧
    (∃ f, file_objs h !! mid = Some f ∧ ticks_per_beat f = 480
          ∧ length (tracks f) = 4%nat ∧ NoDup (tracks f)) ∧
    tracks_of h mid =
      Some [control_events; pad_events; melody_events; arp_events].
Proof.
  eexists _, _. split; [vm_compute; reflexivity|].
  split.
  - eexists. split; [vm_compute; reflexivity|].
    split; [reflexivity|]. split; [reflexivity|].
    apply (bool_decide_unpack _). vm_compute. exact I.
  - vm_compute. reflexivity.
Qed.

Lemma built_tracks_script :
  built_tracks script_config =
    Some [control_events; pad_events; melody_events; arp_events].
Proof. vm_compute. reflexivity. Qed.

(** ** Running statements on the heap *)

Lemma track_append_put (h : Heap) (t : loc) (evs : list Message) (m : Message) :
  track_objs h !! t = Some evs →
  track_append t m h = (Ok tt, put_track h t (evs ++ [m])).
Proof. intros Ht. unfold track_append. rewrite Ht. reflexivity. Qed.

Lemma put_track_lookup (h : Heap) (t : loc) (evs : list Message) :
  track_objs (put_track h t evs) !! t = Some evs.
Proof. apply lookup_insert_eq. Qed.

Lemma put_track_twice (h : Heap) (t : loc) (evs evs' : list Message) :
  put_track (put_track h t evs) t evs' = put_track h t evs'.
Proof. unfold put_track. cbn. rewrite insert_insert_eq. reflexivity. Qed.

Lemma Message_note_on_ok (n v t : Z) :
  is_data_byte n = true → is_data_byte v = true →
  Message_note_on n v t = Ok (note_on n v t).
Proof.
  intros Hn Hv. unfold Message_note_on, check_data_byte.
  rewrite Hn, Hv. reflexivity.
Qed.

Lemma Message_note_off_ok (n v t : Z) :
  is_data_byte n = true → is_data_byte v = true →
  Message_note_off n v t = Ok (note_off n v t).
Proof.
  intros Hn Hv. unfold Message_note_off, check_data_byte.
  rewrite Hn, Hv. reflexivity.
Qed.

Ltac unfold_H :=
  unfold mbind, H_bind, bind, lift, mret, H_ret, ret, raise, index.

Ltac append_step :=
  match goal with
  | |- context [track_append ?t ?m (put_track ?h ?t ?evs)] =>
      rewrite (track_append_put (put_track h t evs) t evs m)
        by apply put_track_lookup;
      rewrite put_track_twice
  | H : track_objs ?h !! ?t = Some ?evs |- context [track_append ?t ?m ?h] =>
      rewrite (track_append_put h t evs m H)
  end.

Lemma pad_chord_run (c : Config) (h : Heap) (pad : loc) (evs : list Message)
    (n0 n1 n2 : Z) :
  track_objs h !! pad = Some evs →
  is_data_byte (pad_velocity c) = true →
  is_data_byte n0 = true → is_data_byte n1 = true → is_data_byte n2 = true →
  pad_chord c pad [n0; n1; n2] h =
    (Ok tt,
     put_track h pad (evs ++ emitChord_spec [n0; n1; n2] (pad_velocity c) 960)).
Proof.
  intros Hpad Hv H0 H1 H2. unfold pad_chord. cbn [for_each]. unfold_H.
  cbn [lookup list_lookup].
  rewrite !Message_note_on_ok by done.
  repeat first
    [ append_step
    | progress (unfold ret; cbn beta iota)
    | rewrite Message_note_off_ok by done ].
  do 2 f_equal. rewrite <- !app_assoc. reflexivity.
Qed.


Lemma generate_midi_script (disk : gmap string (list Z)) :
  generate_midi script_config disk = (Ok tt, <[file_path := script_bytes]> disk).
Proof.
  destruct build_script as (mid & h & Hb & (f & Hf & Htpb & _) & Htr).
  assert (Hfits : (480 <? 2 ^ 15)
                  && deltas_writable
                       [control_events; pad_events; melody_events; arp_events]
                  = true) by (vm_compute; reflexivity).
  unfold generate_midi, MidiFile_save. rewrite Hb, Hf, Htr, Htpb, Hfits.
  reflexivity.
Qed.

Lemma decode_script :
  decode script_bytes =
    Some (mkDecoded 1 480
            [(control_events, 0); (pad_events, 0);
             (melody_events, 0); (arp_events, 0)]).
Proof. vm_compute. reflexivity. Qed.

Lemma track_duration_from (track : list Message) (clock : Z) :
  fold_left (fun clock m => clock + msg_time m) track clock =
    clock + sum_deltas track.
Proof.
  revert clock. induction track as [|m track IH]; intros clock; cbn.
  - lia.
  - rewrite IH. unfold sum_deltas. lia.
Qed.

Lemma sum_deltas_duration (track : list Message) :
  sum_deltas track = track_duration track.
Proof. unfold track_duration. rewrite track_duration_from. lia. Qed.

(** ** The chords of the pad *)

(** C1: run on a heap where [pad] is a track object, the body of the chord
    loop appends, for the chord [62, 65, 69], three NoteOns of velocity 40
    at delta 0 and then three NoteOffs at deltas 960, 0, 0; the same holds
    of every chord of the pad loop, and the pad track of the built sequence
    is the program change followed by these groups of six events. *)
Theorem C1_emit_chord (h : Heap) (pad : loc) (evs : list Message)
    (Hpad : track_objs h !! pad = Some evs) :
  pad_chord script_config pad [62; 65; 69] h =
    (Ok tt,
     put_track h pad
       (evs ++ [note_on 62 40 0; note_on 65 40 0; note_on 69 40 0;
                note_off 62 0 960; note_off 65 0 0; note_off 69 0 0]))
  ∧ (∀ chord, chord ∈ repeat_list pad_chords 2 →
       ∃ n0 n1 n2, chord = [n0; n1; n2] ∧
         pad_chord script_config pad chord h =
           (Ok tt,
            put_track h pad
              (evs ++ [note_on n0 40 0; note_on n1 40 0; note_on n2 40 0;
                       note_off n0 0 960; note_off n1 0 0; note_off n2 0 0])))
  ∧ (∃ control melody arp,
       built_tracks script_config = Some [control; pad_events; melody; arp])
  ∧ pad_events =
      program_change 90 0 ::
      concat ((fun chord => emitChord_spec chord 40 960)
                <$> (pad_chords ++ pad_chords))
  ∧ (∀ chord, chord ∈ pad_chords ++ pad_chords →
       msg_time <$> emitChord_spec chord 40 960 = [0; 0; 0; 960; 0; 0]).
Proof.
  split; [|split; [|split; [|split]]].
  - rewrite (pad_chord_run _ _ _ _ _ _ _ Hpad) by reflexivity. reflexivity.
  - intros chord Hin. cbn in Hin.
    repeat (apply elem_of_cons in Hin as [-> | Hin]);
      try (eexists _, _, _; split; [reflexivity|];
           rewrite (pad_chord_run _ _ _ _ _ _ _ Hpad) by reflexivity;
           reflexivity).
    apply elem_of_nil in Hin. destruct Hin.
  - eexists _, _, _. apply built_tracks_script.
  - reflexivity.
  - intros chord Hin. cbn in Hin.
    repeat (apply elem_of_cons in Hin as [-> | Hin]); try reflexivity.
    apply elem_of_nil in Hin. destruct Hin.
Qed.

Lemma C1_emit_chord_witness :
  track_objs one_track_heap !! 0%nat = Some []
  ∧ pad_chord script_config 0%nat [62; 65; 69] one_track_heap =
      (Ok tt,
       put_track one_track_heap 0%nat
         [note_on 62 40 0; note_on 65 40 0; note_on 69 40 0;
          note_off 62 0 960; note_off 65 0 0; note_off 69 0 0])
  ∧ [57; 60; 64] ∈ repeat_list pad_chords 2
  ∧ msg_time <$> emitChord_spec [57; 60; 64] 40 960 = [0; 0; 0; 960; 0; 0].
Proof.
  assert (Hin : [57; 60; 64] ∈ pad_chords ++ pad_chords).
  { apply (bool_decide_unpack _). vm_compute. exact I. }
  split; [reflexivity|].
  split; [exact (proj1 (C1_emit_chord one_track_heap 0%nat [] eq_refl))|].
  split; [exact Hin|].
  exact (proj2 (proj2 (proj2 (proj2
           (C1_emit_chord one_track_heap 0%nat [] eq_refl)))) _ Hin).
Defined.

(** ** Held notes *)

Section HeldNotes.
Implicit Types (held : gset Z) (track pre post : list Message) (n : Z).

Lemma run_notes_cons held m track held' :
  run_notes held (m :: track) = Some held' →
  ∃ held1, note_step held m = Some held1 ∧ run_notes held1 track = Some held'.
Proof.
  cbn. destruct (note_step held m) as [held1|] eqn:Hstep; [|discriminate].
  cbn. eauto.
Qed.

Lemma note_step_keeps held m held1 n :
  note_step held m = Some held1 → n ∈ held →
  n ∈ held1 ∨ ∃ v t, m = note_off n v t.
Proof.
  destruct m as [p t|k v t|k v t|us t]; cbn; intros Hstep Hn.
  - left. congruence.
  - case_decide; [discriminate|]. inversion Hstep; subst. left. set_solver.
  - case_decide; [|discriminate]. inversion Hstep; subst.
    destruct (decide (n = k)) as [->|Hne]; [right; eauto|left; set_solver].
  - left. congruence.
Qed.

(** A pitch that is on either stays on or meets its NoteOff. *)
Lemma held_closed track held held' n :
  run_notes held track = Some held' → n ∈ held →
  n ∈ held' ∨ ∃ v t, note_off n v t ∈ track.
Proof.
  revert held. induction track as [|m track IH]; intros held Hrun Hn.
  - left. cbn in Hrun. congruence.
  - apply run_notes_cons in Hrun as (held1 & Hstep & Hrun).
    destruct (note_step_keeps _ _ _ _ Hstep Hn) as [Hn1|(v & t & ->)].
    + destruct (IH _ Hrun Hn1) as [?|(v & t & Hoff)]; [by left|].
      right. exists v, t. apply elem_of_cons. by right.
    + right. exists v, t. apply elem_of_cons. by left.
Qed.

Lemma note_on_closed track held held' pre n v t post :
  run_notes held track = Some held' →
  track = pre ++ note_on n v t :: post →
  n ∈ held' ∨ ∃ v' t', note_off n v' t' ∈ post.
Proof.
  revert held track. induction pre as [|m pre IH]; intros held track Hrun ->.
  - apply run_notes_cons in Hrun as (held1 & Hstep & Hrun).
    cbn in Hstep. case_decide; [discriminate|]. inversion Hstep; subst.
    apply (held_closed _ _ _ n Hrun). set_solver.
  - apply run_notes_cons in Hrun as (held1 & Hstep & Hrun).
    by apply (IH held1 _ Hrun).
Qed.

(** A pitch that is on is not switched on again before its NoteOff. *)
Lemma held_not_reopened track held held' pre n v t post :
  run_notes held track = Some held' → n ∈ held →
  track = pre ++ note_on n v t :: post →
  ∃ v' t', note_off n v' t' ∈ pre.
Proof.
  revert held track. induction pre as [|m pre IH]; intros held track Hrun Hn ->.
  - apply run_notes_cons in Hrun as (held1 & Hstep & Hrun).
    cbn in Hstep. case_decide; [discriminate|]. contradiction.
  - apply run_notes_cons in Hrun as (held1 & Hstep & Hrun).
    destruct (note_step_keeps _ _ _ _ Hstep Hn) as [Hn1|(v' & t' & ->)].
    + destruct (IH held1 _ Hrun Hn1 eq_refl) as (v' & t' & Hoff).
      exists v', t'. apply elem_of_cons. by right.
    + exists v', t'. apply elem_of_cons. by left.
Qed.

Lemma no_double_open track held held' pre n v t mid v2 t2 post :
  run_notes held track = Some held' →
  track = pre ++ note_on n v t :: mid ++ note_on n v2 t2 :: post →
  ∃ v' t', note_off n v' t' ∈ mid.
Proof.
  revert held track. induction pre as [|m pre IH]; intros held track Hrun ->.
  - apply run_notes_cons in Hrun as (held1 & Hstep & Hrun).
    cbn in Hstep. case_decide; [discriminate|]. inversion Hstep; subst.
    apply (held_not_reopened _ _ _ _ n v2 t2 post Hrun); [set_solver|done].
  - apply run_notes_cons in Hrun as (held1 & Hstep & Hrun).
    by apply (IH held1 _ Hrun).
Qed.

(** A track that the player runs from silence to silence is well formed. *)
Lemma run_notes_well_formed track :
  run_notes ∅ track = Some ∅ → well_formed track.
Proof.
  intros Hrun. split; [|split; [|done]].
  - intros pre n v t post Heq.
    destruct (note_on_closed _ _ _ _ _ _ _ _ Hrun Heq) as [Hn|?]; [|done].
    set_solver.
  - intros pre n v t mid v2 t2 post Heq.
    by apply (no_double_open _ _ _ _ _ _ _ _ _ _ _ Hrun Heq).
Qed.
End HeldNotes.

(** C2: on each of the pad, melody and arpeggio tracks of the built
    sequence every NoteOn is followed by a NoteOff of its pitch, between two
    NoteOns of one pitch there is a NoteOff of that pitch, and the track ends
    with no pitch on. *)
Theorem C2_notes_closed :
  ∃ control pad melody arp,
    built_tracks script_config = Some [control; pad; melody; arp]
    ∧ well_formed pad ∧ well_formed melody ∧ well_formed arp.
Proof.
  eexists _, _, _, _. split; [apply built_tracks_script|].
  repeat split; try (apply run_notes_well_formed; vm_compute; reflexivity).
Qed.

(** ** The control track and the order of the tracks *)

(** C8: the built sequence has four tracks; [mid.tracks] holds the
    references of the control, pad, melody and arpeggio tracks in the order
    in which they were appended; the control track is the single tempo event
    of 666667 microseconds per beat at delta 0, so it has no program change
    and no note event; the written file holds the tracks in that order. *)
Theorem C8_control_track_first :
  ∃ mid h f tempo_track pad melody arp,
    build script_config empty_heap = (Ok mid, h)
    ∧ file_objs h !! mid = Some f
    ∧ tracks f = [tempo_track; pad; melody; arp]
    ∧ (1 <= length (tracks f))%nat
    ∧ track_objs h !! tempo_track = Some [set_tempo 666667 0]
    ∧ Forall (fun m => is_meta m = true) control_events
    ∧ track_objs h !! pad = Some pad_events
    ∧ track_objs h !! melody = Some melody_events
    ∧ track_objs h !! arp = Some arp_events
    ∧ head pad_events = Some (program_change 90 0)
    ∧ head melody_events = Some (program_change 73 0)
    ∧ head arp_events = Some (program_change 46 0)
    ∧ ∀ disk, ∃ bytes dec,
        (generate_midi script_config disk).2 !! file_path = Some bytes
        ∧ decode bytes = Some dec
        ∧ fst <$> dec_tracks dec =
            [[set_tempo 666667 0]; pad_events; melody_events; arp_events].
Proof.
  eexists _, _, _, _, _, _, _.
  split; [vm_compute; reflexivity|].
  split; [vm_compute; reflexivity|].
  split; [reflexivity|].
  split; [cbn; lia|].
  split; [vm_compute; reflexivity|].
  split; [repeat constructor|].
  split; [vm_compute; reflexivity|].
  split; [vm_compute; reflexivity|].
  split; [vm_compute; reflexivity|].
  split; [reflexivity|]. split; [reflexivity|]. split; [reflexivity|].
  intros disk. rewrite generate_midi_script. cbn [snd].
  rewrite lookup_insert_eq. eexists _, _.
  split; [reflexivity|]. split; [apply decode_script|]. reflexivity.
Qed.

(** ** The durations of the tracks *)

(** C9: the pad loop runs over 8 chords, the melody over 4 phrases of 8
    notes, the arpeggio over 16 patterns of 4 notes; the delta times of the
    pad, melody and arpeggio tracks sum to 7680, 19200 and 15360 ticks, which
    are three different totals; a melody note at index [i] of its phrase
    lasts 960 ticks when [i mod 4 = 3] and 480 ticks otherwise. *)
Theorem C9_unequal_durations :
  ∃ control pad melody arp,
    built_tracks script_config = Some [control; pad; melody; arp]
    ∧ sum_deltas pad = 7680
    ∧ sum_deltas melody = 19200
    ∧ sum_deltas arp = 15360
    ∧ sum_deltas pad ≠ sum_deltas melody
    ∧ sum_deltas melody ≠ sum_deltas arp
    ∧ sum_deltas pad ≠ sum_deltas arp
    ∧ length (repeat_list pad_chords 2) = 8%nat
    ∧ 8 * 960 = 7680
    ∧ Forall (fun phrase => length phrase = 8%nat)
             [phrase_a; phrase_b; phrase_a; phrase_c]
    ∧ melody =
        program_change 73 0 ::
        concat ((fun phrase =>
                   concat (imap (fun i note =>
                             [note_on note 55 0;
                              note_off note 0
                                (if Z.of_nat i mod 4 =? 3 then 960 else 480)])
                           phrase))
                  <$> [phrase_a; phrase_b; phrase_a; phrase_c])
    ∧ length (repeat_list arp_patterns 4) = 16%nat
    ∧ Forall (fun pattern => length pattern = 4%nat)
             (repeat_list arp_patterns 4)
    ∧ 16 * 4 * 240 = 15360.
Proof.
  eexists _, _, _, _. split; [apply built_tracks_script|].
  repeat split; try (vm_compute; congruence);
    repeat constructor.
Qed.

(** ** The constants of the script *)

(** C10: every event of the built tracks has its pitch in 55..76, its
    velocity equal to the one of its track (40, 55, 35) or 0 for a NoteOff,
    its program equal to the one of its track (90, 73, 46), all within
    0..127; the resolution 480 and the tempo 666667 are positive; the build
    returns without an error, and so does the whole script on every disk. *)
Theorem C10_constants_in_bounds :
  ∃ mid h pad melody arp,
    build script_config empty_heap = (Ok mid, h)
    ∧ tracks_of h mid = Some [[set_tempo 666667 0]; pad; melody; arp]
    ∧ Forall (track_constants 90 40) pad
    ∧ Forall (track_constants 73 55) melody
    ∧ Forall (track_constants 46 35) arp
    ∧ Forall (Forall (fun m => msg_in_bounds m = true))
             [[set_tempo 666667 0]; pad; melody; arp]
    ∧ 0 < ticksPerBeat script_config
    ∧ 0 < tempoMicrosecondsPerBeat script_config
    ∧ ∀ disk, (generate_midi script_config disk).1 = Ok tt.
Proof.
  eexists _, _, _, _, _.
  split; [vm_compute; reflexivity|].
  split; [vm_compute; reflexivity|].
  split; [apply (bool_decide_unpack _); vm_compute; exact I|].
  split; [apply (bool_decide_unpack _); vm_compute; exact I|].
  split; [apply (bool_decide_unpack _); vm_compute; exact I|].
  split; [apply (bool_decide_unpack _); vm_compute; exact I|].
  split; [reflexivity|]. split; [reflexivity|].
  intros disk. rewrite generate_midi_script. reflexivity.
Qed.

(** ** The written file *)

Lemma script_file (disk : gmap string (list Z)) :
  (generate_midi script_config disk).2 !! file_path = Some script_bytes.
Proof. rewrite generate_midi_script. cbn [snd]. apply lookup_insert_eq. Qed.

(** ** A program out of range *)

Lemma build_error_no_file (c : Config) (e : ErrorKind) (h : Heap)
    (disk : gmap string (list Z)) :
  build c empty_heap = (Err e, h) → generate_midi c disk = (Err e, disk).
Proof. intros Hb. unfold generate_midi. rewrite Hb. reflexivity. Qed.

(** C7: the program change of program 128, like that of every program
    outside 0..127, is refused with [InvalidRange]; the script run with 128
    as the program of the pad, of the melody or of the arpeggio stops with
    [InvalidRange] and leaves the disk as it was, so no file is written. *)
Theorem C7_program_out_of_range :
  Message_program_change 128 0 = Err InvalidRange
  ∧ (∀ p t, ¬ (0 <= p <= 127) →
       Message_program_change p t = Err InvalidRange)
  ∧ ∀ disk,
      generate_midi (with_pad_program 128 script_config) disk =
        (Err InvalidRange, disk)
      ∧ generate_midi (with_melody_program 128 script_config) disk =
          (Err InvalidRange, disk)
      ∧ generate_midi (with_arp_program 128 script_config) disk =
          (Err InvalidRange, disk).
Proof.
  split; [reflexivity|]. split.
  - intros p t Hp. unfold Message_program_change, check_data_byte, is_data_byte.
    destruct (Z.leb_spec 0 p), (Z.leb_spec p 127); cbn; try reflexivity. lia.
  - intros disk.
    repeat split; eapply build_error_no_file; vm_compute; reflexivity.
Qed.

Lemma C7_program_out_of_range_witness :
  ¬ (0 <= 128 <= 127) ∧ Message_program_change 128 0 = Err InvalidRange.
Proof.
  assert (Hp : ¬ (0 <= 128 <= 127)) by lia.
  split; [exact Hp|].
  exact (proj1 (proj2 C7_program_out_of_range) 128 0 Hp).
Defined.

(** ** Round trips of the container format *)

Section Bits.

Lemma lor_shiftl_land (v k : Z) :
  0 <= k → Z.lor (Z.shiftl (Z.shiftr v k) k) (Z.land v (Z.ones k)) = v.
Proof.
  intros Hk. apply Z.bits_inj'. intros n Hn.
  rewrite Z.lor_spec, Z.land_spec, Z.shiftl_spec by lia.
  destruct (Z.ltb_spec n k) as [Hlt|Hge].
  - rewrite Z.testbit_neg_r by lia.
    rewrite Z.ones_spec_low by lia. cbn. apply andb_true_r.
  - rewrite Z.shiftr_spec by lia. rewrite Z.ones_spec_high by lia.
    rewrite andb_false_r, orb_false_r. f_equal. lia.
Qed.

Lemma land_ones_range (v k : Z) : 0 <= k → 0 <= Z.land v (Z.ones k) < 2 ^ k.
Proof.
  intros Hk. rewrite Z.land_ones by lia. apply Z.mod_pos_bound. lia.
Qed.

Lemma shiftr_range (v k n : Z) :
  0 <= k → 0 <= n → 0 <= v < 2 ^ (k + n) → 0 <= Z.shiftr v k < 2 ^ n.
Proof.
  intros Hk Hn [Hv0 Hv]. rewrite Z.shiftr_div_pow2 by lia.
  rewrite Z.pow_add_r in Hv by lia. split.
  - apply Z.div_pos; lia.
  - apply Z.div_lt_upper_bound; lia.
Qed.

(** A property checked on the 128 values of a data byte. *)
Lemma forall_septet (P : Z → bool) :
  forallb P (List.map Z.of_nat (seq 0 128)) = true →
  ∀ b, 0 <= b < 128 → P b = true.
Proof.
  intros Hall b Hb. rewrite forallb_forall in Hall. apply Hall.
  apply in_map_iff. exists (Z.to_nat b). split; [lia|]. apply in_seq. lia.
Qed.

Lemma septet_marked (b : Z) :
  0 <= b < 128 →
  (Z.lor b 128 <? 128) = false ∧ Z.land (Z.lor b 128) 127 = b
  ∧ Z.land b 127 = b ∧ (b <? 128) = true ∧ (b =? 255) = false.
Proof.
  intros Hb.
  pose proof (forall_septet
    (fun b => negb (Z.lor b 128 <? 128) && (Z.land (Z.lor b 128) 127 =? b)
              && (Z.land b 127 =? b) && (b <? 128) && negb (b =? 255))
    eq_refl b Hb) as Hall.
  cbn beta in Hall. rewrite !andb_true_iff, !negb_true_iff, !Z.eqb_eq in Hall.
  tauto.
Qed.

End Bits.

Section VariableInt.

Lemma septets_range (fuel : nat) (v : Z) :
  Forall (fun b => 0 <= b < 128) (septets fuel v).
Proof.
  revert v. induction fuel as [|fuel IH]; intros v; cbn; [constructor|].
  destruct (v <=? 0); constructor; [|apply IH].
  apply (land_ones_range v 7). lia.
Qed.

Lemma septets_value (fuel : nat) (v : Z) :
  0 <= v < 2 ^ (7 * Z.of_nat fuel) →
  foldr (fun b acc => Z.lor (Z.shiftl acc 7) b) 0 (septets fuel v) = v.
Proof.
  revert v. induction fuel as [|fuel IH]; intros v Hv; cbn.
  - change (7 * 0) with 0 in Hv. cbn in Hv. lia.
  - destruct (Z.leb_spec v 0) as [Hle|Hlt]; cbn; [lia|].
    rewrite IH.
    + apply (lor_shiftl_land v 7). lia.
    + apply shiftr_range; [lia|lia|].
      replace (7 + 7 * Z.of_nat fuel) with (7 * Z.of_nat (S fuel)) by lia.
      lia.
Qed.

Lemma septets_nonempty (fuel : nat) (v : Z) :
  0 < v → septets (S fuel) v ≠ [].
Proof.
  intros Hv. cbn. destruct (Z.leb_spec v 0); [lia|discriminate].
Qed.

Lemma read_marked (bs rest : list Z) (acc : Z) :
  bs ≠ [] → Forall (fun b => 0 <= b < 128) bs →
  read_variable_int acc (mark_continuation bs ++ rest) =
    Some (fold_left (fun a b => Z.lor (Z.shiftl a 7) b) bs acc, rest).
Proof.
  revert acc. induction bs as [|b bs IH]; intros acc Hne Hall; [done|].
  inversion Hall as [|? ? Hb Hbs]; subst.
  destruct (septet_marked b Hb) as (Hhigh & Hland & Hlow & Hlt & _).
  destruct bs as [|b' bs].
  - cbn. rewrite Hlt, Hlow. reflexivity.
  - change (mark_continuation (b :: b' :: bs))
      with (Z.lor b 128 :: mark_continuation (b' :: bs)).
    cbn [app read_variable_int]. rewrite Hhigh, Hland.
    rewrite IH by done. reflexivity.
Qed.

(** The variable-length quantity written for a delta time reads back as
    that delta time, and the reader stops right after it. *)
Lemma encode_variable_int_round_trip (v : Z) (rest : list Z) :
  0 <= v →
  read_variable_int 0 (encode_variable_int v ++ rest) = Some (v, rest).
Proof.
  intros Hv. unfold encode_variable_int.
  destruct (decide (v = 0)) as [->|Hne]; [reflexivity|].
  set (fuel := S (Z.to_nat (Z.log2 v))).
  assert (Hds : septets fuel v ≠ []) by (apply septets_nonempty; lia).
  assert (Hrev : rev (septets fuel v) ≠ []).
  { intros Hnil. apply Hds. rewrite <- (rev_involutive (septets fuel v)).
    rewrite Hnil. reflexivity. }
  destruct (rev (septets fuel v)) as [|b bs] eqn:Hbs; [done|].
  rewrite read_marked.
  - f_equal. f_equal. rewrite <- Hbs.
    rewrite <- (septets_value fuel v) at 2.
    + rewrite <- (rev_involutive (septets fuel v)) at 2.
      rewrite fold_left_rev_right. reflexivity.
    + pose proof (Z.log2_spec v ltac:(lia)) as [_ Hlog].
      pose proof (Z.log2_nonneg v).
      split; [lia|]. eapply Z.lt_le_trans; [exact Hlog|].
      apply Z.pow_le_mono_r; lia.
  - done.
  - rewrite <- Hbs. apply Forall_rev, septets_range.
Qed.

End VariableInt.

Section BigEndian.

Lemma be_bytes_length (n : nat) (v : Z) : length (be_bytes n v) = n.
Proof.
  revert v. induction n as [|n IH]; intros v; cbn; [done|].
  rewrite length_app, IH. cbn. lia.
Qed.

Lemma be_value_snoc (bs : list Z) (b : Z) :
  be_value (bs ++ [b]) = Z.lor (Z.shiftl (be_value bs) 8) b.
Proof. unfold be_value. rewrite fold_left_app. reflexivity. Qed.

(** A value that fits in [n] bytes is read back from them. *)
Lemma be_bytes_round_trip (n : nat) (v : Z) :
  0 <= v < 2 ^ (8 * Z.of_nat n) → be_value (be_bytes n v) = v.
Proof.
  revert v. induction n as [|n IH]; intros v Hv.
  - cbn in *. lia.
  - cbn [be_bytes]. rewrite be_value_snoc, IH.
    + apply (lor_shiftl_land v 8). lia.
    + apply shiftr_range; [lia|lia|].
      replace (8 + 8 * Z.of_nat n) with (8 * Z.of_nat (S n)) by lia. lia.
Qed.

Lemma read_chunk_write_chunk (name data rest : list Z) :
  length name = 4%nat → Z.of_nat (length data) < 2 ^ 32 →
  read_chunk (write_chunk name data ++ rest) = Some (name, data, rest).
Proof.
  intros Hname Hdata. unfold read_chunk, write_chunk.
  rewrite <- !app_assoc.
  assert (Htake : take 4 (name ++ be_bytes 4 (Z.of_nat (length data))
                           ++ data ++ rest) = name).
  { rewrite take_app_length'; done. }
  assert (Hdrop4 : drop 4 (name ++ be_bytes 4 (Z.of_nat (length data))
                            ++ data ++ rest) =
                   be_bytes 4 (Z.of_nat (length data)) ++ data ++ rest).
  { rewrite drop_app_length'; done. }
  assert (Hdrop8 : drop 8 (name ++ be_bytes 4 (Z.of_nat (length data))
                            ++ data ++ rest) = data ++ rest).
  { change 8%nat with (4 + 4)%nat. rewrite <- drop_drop, Hdrop4.
    rewrite drop_app_length'; [done|]. by rewrite be_bytes_length. }
  rewrite Htake, Hdrop4, Hdrop8.
  rewrite (take_app_length' (be_bytes 4 _)) by (by rewrite be_bytes_length).
  rewrite be_bytes_round_trip by (change (8 * Z.of_nat 4) with 32; lia).
  rewrite Nat2Z.id, take_app_length, drop_app_length.
  rewrite decide_True; [reflexivity|].
  rewrite be_bytes_length. done.
Qed.

End BigEndian.

Section Events.

Lemma read_events_end (fuel : nat) (r : option Z) :
  read_events (S fuel) r end_of_track = Some ([], 0).
Proof. reflexivity. Qed.

Lemma read_events_step (fuel : nat) (r : option Z) (delta : Z)
    (body : list Z) :
  0 <= delta →
  read_events (S fuel) r (encode_variable_int delta ++ body) =
    match body with
    | [] => None
    | b :: bs2 =>
        if b =? 255 then
          match bs2 with
          | [] => None
          | ty :: bs3 =>
              '(len, bs4) ← read_variable_int 0 bs3;
              let data := take (Z.to_nat len) bs4 in
              let rest := drop (Z.to_nat len) bs4 in
              if ty =? 47 then
                match data, rest with
                | [], [] => Some ([], delta)
                | _, _ => None
                end
              else if (ty =? 81) && (len =? 3)
                      && (Nat.eqb (length data) 3) then
                '(evs, d) ← read_events fuel None rest;
                Some (set_tempo (be_value data) delta :: evs, d)
              else None
          end
        else
          '(status, body') ← (if b <? 128
                              then s ← r; Some (s, body)
                              else Some (b, bs2));
          '(m, rest) ← read_message status delta body';
          '(evs, d) ← read_events fuel (Some status) rest;
          Some (m :: evs, d)
    end.
Proof.
  intros Hdelta. cbn [read_events].
  rewrite encode_variable_int_round_trip by done. reflexivity.
Qed.

(** The events written for a track, closed by the end-of-track event, are
    read back as they were, whatever the running status at the start. *)
Lemma read_events_write_events (track : list Message) :
  Forall valid_msg track →
  ∀ (fuel : nat) (r : option Z), (length track < fuel)%nat →
    read_events fuel r (write_events r track ++ end_of_track) =
      Some (track, 0).
Proof.
  induction 1 as [|m track Hm Htrack IH]; intros fuel r Hfuel.
  - destruct fuel; [cbn in Hfuel; lia|]. apply read_events_end.
  - destruct fuel as [|fuel]; [cbn in Hfuel; lia|].
    cbn in Hfuel. assert (Hlt : (length track < fuel)%nat) by lia.
    destruct Hm as [Htime Hm].
    cbn [write_events]. rewrite <- app_assoc.
    rewrite read_events_step by done.
    destruct m as [p tm|n v tm|n v tm|us tm]; cbn [is_meta msg_bytes msg_time].
    + destruct (septet_marked p Hm) as (_ & _ & _ & Hp & Hp').
      destruct (decide (r = Some 192)) as [->|Hr].
      * cbn. rewrite Hp', Hp. cbn. rewrite (IH fuel (Some 192) Hlt).
        reflexivity.
      * cbn. rewrite (IH fuel (Some 192) Hlt). reflexivity.
    + destruct Hm as [Hn Hv].
      destruct (septet_marked n Hn) as (_ & _ & _ & Hn1 & Hn2).
      destruct (decide (r = Some 144)) as [->|Hr].
      * cbn. rewrite Hn2, Hn1. cbn. rewrite (IH fuel (Some 144) Hlt).
        reflexivity.
      * cbn. rewrite (IH fuel (Some 144) Hlt). reflexivity.
    + destruct Hm as [Hn Hv].
      destruct (septet_marked n Hn) as (_ & _ & _ & Hn1 & Hn2).
      destruct (decide (r = Some 128)) as [->|Hr].
      * cbn. rewrite Hn2, Hn1. cbn. rewrite (IH fuel (Some 128) Hlt).
        reflexivity.
      * cbn. rewrite (IH fuel (Some 128) Hlt). reflexivity.
    + rewrite <- !app_assoc. cbn [app]. change (255 =? 255) with true.
      cbn iota. rewrite encode_variable_int_round_trip by lia.
      cbn [mbind option_bind]. change (81 =? 47) with false.
      change (Z.to_nat 3) with 3%nat.
      rewrite take_app_length' by (by rewrite be_bytes_length).
      rewrite drop_app_length' by (by rewrite be_bytes_length).
      rewrite be_bytes_length. cbn [andb Z.eqb Pos.eqb Nat.eqb].
      rewrite (IH fuel None Hlt). cbn [mbind option_bind].
      rewrite be_bytes_round_trip by (change (8 * Z.of_nat 3) with 24; lia).
      reflexivity.
Qed.

Lemma write_events_length (track : list Message) (r : option Z) :
  (length track <= length (write_events r track))%nat.
Proof.
  revert r. induction track as [|m track IH]; intros r; [cbn; lia|].
  cbn [write_events]. rewrite length_app.
  destruct m as [p tm|n v tm|n v tm|us tm]; cbn [is_meta msg_bytes].
  - destruct (decide (r = Some 192)); rewrite length_app;
      specialize (IH (Some 192)); cbn; lia.
  - destruct (decide (r = Some 144)); rewrite length_app;
      specialize (IH (Some 144)); cbn; lia.
  - destruct (decide (r = Some 128)); rewrite length_app;
      specialize (IH (Some 128)); cbn; lia.
  - rewrite length_app. specialize (IH None). cbn [length app].
    rewrite !length_app. cbn. lia.
Qed.

(** A track chunk decodes to the events of its track, and its end-of-track
    event is at delta 0. *)
Lemma decode_track_write_track (track : list Message) :
  Forall valid_msg track →
  Z.of_nat (length (write_events None track ++ end_of_track)) < 2 ^ 32 →
  decode_track (write_track track) = Some (track, 0).
Proof.
  intros Hvalid Hsize. unfold decode_track, write_track.
  rewrite <- (app_nil_r (write_chunk _ _)).
  rewrite read_chunk_write_chunk by done.
  cbn [mbind option_bind]. rewrite decide_True by done.
  unfold read_track. apply read_events_write_events; [done|].
  rewrite length_app. pose proof (write_events_length track None).
  cbn. lia.
Qed.

End Events.


Section File.

Lemma read_tracks_write_tracks (trks : list (list Message)) (rest : list Z) :
  Forall track_fits trks →
  read_tracks (length trks) (concat (write_track <$> trks) ++ rest) =
    Some ((fun t => (t, 0)) <$> trks, rest).
Proof.
  induction 1 as [|t trks [Hvalid Hsize] Htrks IH]; [reflexivity|].
  cbn [length fmap list_fmap concat read_tracks].
  unfold write_track at 1. rewrite <- app_assoc.
  rewrite read_chunk_write_chunk by done.
  cbn [mbind option_bind]. rewrite decide_True by done.
  unfold read_track. rewrite read_events_write_events; [|done|].
  - cbn [mbind option_bind]. fold (write_track <$> trks).
    rewrite IH. reflexivity.
  - rewrite length_app. pose proof (write_events_length t None). cbn. lia.
Qed.

(** A serialized sequence decodes to its resolution and its tracks. *)
Lemma decode_serialize (tpb : Z) (trks : list (list Message)) :
  0 <= tpb < 2 ^ 16 → Z.of_nat (length trks) < 2 ^ 16 →
  Forall track_fits trks →
  decode (serialize tpb trks) =
    Some (mkDecoded 1 tpb ((fun t => (t, 0)) <$> trks)).
Proof.
  intros Htpb Hn Htrks. unfold decode, serialize.
  rewrite read_chunk_write_chunk
    by first [reflexivity | rewrite !length_app, !be_bytes_length; cbn; lia].
  cbn [mbind option_bind].
  rewrite decide_True by (by rewrite !length_app, !be_bytes_length).
  rewrite (drop_app_length' (be_bytes 2 1) _ 2) by done.
  rewrite (take_app_length' (be_bytes 2 (Z.of_nat (length trks))))
    by (by rewrite be_bytes_length).
  rewrite (be_bytes_round_trip 2 (Z.of_nat (length trks)))
    by (change (8 * Z.of_nat 2) with 16; lia).
  rewrite Nat2Z.id.
  rewrite <- (app_nil_r (concat _)).
  rewrite read_tracks_write_tracks by done.
  cbn [mbind option_bind].
  rewrite (take_app_length' (be_bytes 2 1) _ 2) by done.
  rewrite (app_assoc (be_bytes 2 1)).
  rewrite drop_app_length' by (by rewrite length_app, !be_bytes_length).
  rewrite (be_bytes_round_trip 2 tpb)
    by (change (8 * Z.of_nat 2) with 16; lia).
  reflexivity.
Qed.

End File.

(** ** The round trips of the script *)

(** C3: for every track the delta times sum to the duration of the track,
    and when the container can hold the track its chunk decodes to the same
    events with the end-of-track event at delta 0, so that the decoded delta
    times sum to the same duration; each of the four built tracks is such a
    track, their durations are 0, 7680, 19200 and 15360 ticks, and the
    tracks decoded from the written file have these durations. *)
Theorem C3_duration_round_trip :
  (∀ track, sum_deltas track = track_duration track)
  ∧ (∀ track, track_fits track →
       ∃ track' d, decode_track (write_track track) = Some (track', d)
                   ∧ track' = track ∧ d = 0
                   ∧ sum_deltas track' + d = track_duration track)
  ∧ ∃ trks,
      built_tracks script_config = Some trks
      ∧ Forall track_fits trks
      ∧ Forall (fun t =>
                  ∃ t' d, decode_track (write_track t) = Some (t', d)
                          ∧ sum_deltas t' + d = track_duration t) trks
      ∧ track_duration <$> trks = [0; 7680; 19200; 15360]
      ∧ ∀ disk, ∃ bytes dec,
          (generate_midi script_config disk).2 !! file_path = Some bytes
          ∧ decode bytes = Some dec
          ∧ (fun td => sum_deltas td.1 + td.2) <$> dec_tracks dec =
              track_duration <$> trks.
Proof.
  assert (Hround : ∀ track, track_fits track →
            ∃ track' d, decode_track (write_track track) = Some (track', d)
                        ∧ track' = track ∧ d = 0
                        ∧ sum_deltas track' + d = track_duration track).
  { intros track [Hvalid Hsize]. exists track, 0.
    split; [by apply decode_track_write_track|].
    split; [done|]. split; [done|]. rewrite sum_deltas_duration. lia. }
  split; [apply sum_deltas_duration|]. split; [exact Hround|].
  eexists. split; [apply built_tracks_script|].
  assert (Hfits : Forall track_fits
                    [control_events; pad_events; melody_events; arp_events]).
  { repeat apply Forall_cons_2; try apply Forall_nil_2;
      (split; [apply (bool_decide_unpack _); vm_compute; exact I
              |vm_compute; reflexivity]). }
  split; [exact Hfits|]. split.
  - eapply Forall_impl; [exact Hfits|]. intros t Ht.
    destruct (Hround t Ht) as (t' & d & Hdec & _ & _ & Hsum). eauto.
  - split; [vm_compute; reflexivity|].
    intros disk. eexists _, _. split; [apply script_file|].
    split; [apply decode_script|]. vm_compute. reflexivity.
Qed.

Lemma C3_duration_round_trip_witness :
  track_fits [note_on 60 64 0; note_off 60 0 480]
  ∧ ∃ track' d,
      decode_track (write_track [note_on 60 64 0; note_off 60 0 480]) =
        Some (track', d)
      ∧ track' = [note_on 60 64 0; note_off 60 0 480] ∧ d = 0
      ∧ sum_deltas track' + d =
          track_duration [note_on 60 64 0; note_off 60 0 480].
Proof.
  assert (Hfits : track_fits [note_on 60 64 0; note_off 60 0 480]).
  { split; [apply (bool_decide_unpack _); vm_compute; exact I
           |vm_compute; reflexivity]. }
  split; [exact Hfits|].
  exact (proj1 (proj2 C3_duration_round_trip) _ Hfits).
Defined.

(** C4: a sequence of 480 ticks per beat with the one tempo event of 666667
    microseconds per beat serializes to a file whose header decodes to 480
    and whose tempo event decodes to 666667; the resolution is the two bytes
    1, 224 and the tempo the three bytes 10, 44, 43; the file that the script
    writes decodes to the same two values; every resolution below 2^15 and
    every tempo below 2^24 come back as they were written. *)
Theorem C4_header_round_trip :
  decode (serialize 480 [[set_tempo 666667 0]]) =
    Some (mkDecoded 1 480 [([set_tempo 666667 0], 0)])
  ∧ be_bytes 2 480 = [1; 224] ∧ be_value [1; 224] = 480
  ∧ be_bytes 3 666667 = [10; 44; 43] ∧ be_value [10; 44; 43] = 666667
  ∧ (∀ disk, ∃ bytes dec others,
       (generate_midi script_config disk).2 !! file_path = Some bytes
       ∧ decode bytes = Some dec
       ∧ dec_ticks_per_beat dec = 480
       ∧ dec_tracks dec = ([set_tempo 666667 0], 0) :: others)
  ∧ ∀ tpb tempo, 0 < tpb < 2 ^ 15 → 0 < tempo < 2 ^ 24 →
      decode (serialize tpb [[set_tempo tempo 0]]) =
        Some (mkDecoded 1 tpb [([set_tempo tempo 0], 0)]).
Proof.
  split; [vm_compute; reflexivity|].
  split; [reflexivity|]. split; [reflexivity|].
  split; [reflexivity|]. split; [reflexivity|].
  split.
  - intros disk. eexists _, _, _. split; [apply script_file|].
    split; [apply decode_script|]. split; reflexivity.
  - intros tpb tempo Htpb Htempo.
    rewrite decode_serialize; [reflexivity|lia|cbn; lia|].
    apply Forall_cons_2; [|apply Forall_nil_2]. split.
    + apply Forall_cons_2; [|apply Forall_nil_2].
      unfold valid_msg. cbn [msg_time]. lia.
    + cbn [write_events is_meta msg_bytes msg_time].
      rewrite !length_app, be_bytes_length. vm_compute. reflexivity.
Qed.

Lemma C4_header_round_trip_witness :
  0 < 96 < 2 ^ 15 ∧ 0 < 500000 < 2 ^ 24
  ∧ decode (serialize 96 [[set_tempo 500000 0]]) =
      Some (mkDecoded 1 96 [([set_tempo 500000 0], 0)]).
Proof.
  assert (H1 : 0 < 96 < 2 ^ 15) by (cbn; lia).
  assert (H2 : 0 < 500000 < 2 ^ 24) by (cbn; lia).
  split; [exact H1|]. split; [exact H2|].
  exact (proj2 (proj2 (proj2 (proj2 (proj2 (proj2 C4_header_round_trip)))))
           96 500000 H1 H2).
Defined.

#[local] Set Warnings "-clear-no-such-hyp".

(** * The loops, on any score *)

(** ** Appending in a loop *)

Lemma put_track_same (h : Heap) (t : loc) (evs : list Message) :
  track_objs h !! t = Some evs → put_track h t evs = h.
Proof.
  intros Ht. destruct h as [ts fs]. unfold put_track. cbn in *.
  by rewrite insert_id.
Qed.

Lemma bind_run {A B} (m : H A) (k : A → H B) (h h' : Heap) (a : A) :
  m h = (Ok a, h') → (m ≫= k) h = k a h'.
Proof. intros Hm. unfold mbind, H_bind, bind. rewrite Hm. reflexivity. Qed.

Lemma bind_raise {A B} (m : H A) (k : A → H B) (h h' : Heap) (e : ErrorKind) :
  m h = (Err e, h') → (m ≫= k) h = (Err e, h').
Proof. intros Hm. unfold mbind, H_bind, bind. rewrite Hm. reflexivity. Qed.

(** A loop whose body appends the events [evs_of x] to track [t] appends
    the events of all its rounds, in order. *)
Lemma for_each_appends {A} (P : A → Prop) (body : A → H unit) (t : loc)
    (evs_of : A → list Message) :
  (∀ x h evs, P x → track_objs h !! t = Some evs →
     body x h = (Ok tt, put_track h t (evs ++ evs_of x))) →
  ∀ xs h evs, Forall P xs → track_objs h !! t = Some evs →
    for_each xs body h =
      (Ok tt, put_track h t (evs ++ concat (evs_of <$> xs))).
Proof.
  intros Hbody xs. induction xs as [|x xs IH]; intros h evs HP Ht.
  - cbn. rewrite app_nil_r, put_track_same by done. reflexivity.
  - inversion HP as [|? ? Hx Hxs]; subst. cbn [for_each].
    rewrite (bind_run _ _ _ _ _ (Hbody x h evs Hx Ht)).
    rewrite (IH _ (evs ++ evs_of x) Hxs) by apply put_track_lookup.
    rewrite put_track_twice. cbn [fmap list_fmap concat].
    by rewrite <- app_assoc.
Qed.

Lemma note_on_loop (v : Z) (t : loc) (notes : list Z) (h : Heap)
    (evs : list Message) :
  is_data_byte v = true →
  Forall (fun n => is_data_byte n = true) notes →
  track_objs h !! t = Some evs →
  for_each notes (fun note =>
      m ← lift (Message_note_on note v 0); track_append t m) h =
    (Ok tt, put_track h t (evs ++ ((fun n => note_on n v 0) <$> notes))).
Proof.
  intros Hv Hnotes Ht.
  rewrite (for_each_appends (fun n => is_data_byte n = true) _ t
             (fun n => [note_on n v 0])) with (evs := evs); try done.
  - do 3 f_equal. clear. induction notes as [|n notes IH]; [done|].
    cbn. by rewrite IH.
  - intros n h0 evs0 Hn Ht0. unfold_H.
    rewrite Message_note_on_ok by done. by apply track_append_put.
Qed.

Lemma note_off_step (t : loc) (n d : Z) (h : Heap) (evs : list Message) :
  is_data_byte n = true → track_objs h !! t = Some evs →
  (m ← lift (Message_note_off n 0 d); track_append t m) h =
    (Ok tt, put_track h t (evs ++ [note_off n 0 d])).
Proof.
  intros Hn Ht. unfold_H. rewrite Message_note_off_ok by done.
  by apply track_append_put.
Qed.

(** ** The chord loop *)

Lemma pad_chord_any (c : Config) (h : Heap) (pad : loc) (evs : list Message)
    (chord : list Z) :
  track_objs h !! pad = Some evs →
  is_data_byte (pad_velocity c) = true →
  Forall (fun n => is_data_byte n = true) chord →
  pad_chord c pad chord h =
    (pad_chord_result chord,
     put_track h pad (evs ++ pad_chord_events (pad_velocity c) chord)).
Proof.
  intros Hpad Hv Hchord. unfold pad_chord.
  rewrite (bind_run _ _ _ _ _ (note_on_loop _ _ _ _ _ Hv Hchord Hpad)).
  unfold pad_chord_events, pad_chord_result.
  destruct chord as [|n0 [|n1 [|n2 more]]];
    repeat match goal with
           | H : Forall _ (_ :: _) |- _ =>
               let Hn := fresh "Hn" in
               apply Forall_cons in H as [Hn H]
           end;
    unfold_H; cbn [lookup list_lookup];
    repeat first
      [ append_step
      | progress (unfold ret, raise; cbn beta iota)
      | rewrite Message_note_off_ok by done ];
    cbn [zip_with length];
    rewrite ?zip_with_nil_r, ?app_nil_r, <- ?app_assoc; cbn [app];
    first [ rewrite decide_True by lia | rewrite decide_False by lia ];
    reflexivity.
Qed.

(** ** Durations and held notes of appended events *)

Lemma sum_deltas_app (a b : list Message) :
  sum_deltas (a ++ b) = sum_deltas a + sum_deltas b.
Proof.
  unfold sum_deltas. induction a as [|m a IH].
  - rewrite app_nil_l. cbn [foldr]. lia.
  - rewrite <- app_comm_cons. cbn [foldr]. rewrite IH. lia.
Qed.

Lemma sum_deltas_note_ons (v : Z) (notes : list Z) :
  sum_deltas ((fun n => note_on n v 0) <$> notes) = 0.
Proof. induction notes as [|n notes IH]; [done|]. cbn in *. exact IH. Qed.

Lemma run_notes_app (held : gset Z) (a b : list Message) :
  run_notes held (a ++ b) = run_notes held a ≫= fun held' => run_notes held' b.
Proof.
  revert held. induction a as [|m a IH]; intros held; [done|].
  cbn. destruct (note_step held m) as [held1|]; cbn; [apply IH|done].
Qed.

Lemma run_notes_note (held : gset Z) (n v d : Z) :
  n ∉ held → run_notes held (emitNote_spec n v d) = Some held.
Proof.
  intros Hn. cbn. rewrite decide_False by done. cbn.
  rewrite decide_True by set_solver. cbn. f_equal. set_solver.
Qed.

(** A run of single notes, each switched off before the next one starts,
    leaves the held pitches as they were. *)
Lemma run_notes_single_notes (held : gset Z) (groups : list (list Message)) :
  Forall (fun g => ∃ n v d, g = emitNote_spec n v d ∧ n ∉ held) groups →
  run_notes held (concat groups) = Some held.
Proof.
  induction 1 as [|g groups (n & v & d & -> & Hn) _ IH]; [done|].
  cbn [concat]. rewrite run_notes_app, run_notes_note by done. exact IH.
Qed.

Lemma prefix_cons_cases {A} (x : A) (pre l : list A) :
  pre `prefix_of` x :: l →
  pre = [] ∨ ∃ pre', pre = x :: pre' ∧ pre' `prefix_of` l.
Proof.
  destruct pre as [|y pre]; [by left|]. intros Hpre. right.
  pose proof (prefix_cons_inv_1 _ _ _ _ Hpre) as ->.
  exists pre. split; [done|]. by apply prefix_cons_inv_2 in Hpre.
Qed.

Lemma monophonic_single_notes (groups : list (list Message)) :
  Forall (fun g => ∃ n v d, g = emitNote_spec n v d) groups →
  monophonic (concat groups).
Proof.
  induction 1 as [|g groups (n & v & d & ->) _ IH]; intros pre Hpre.
  - apply prefix_nil_inv in Hpre as ->. exists ∅. split; [done|].
    rewrite size_empty. lia.
  - cbn in Hpre. apply prefix_cons_cases in Hpre as [->|(pre1 & -> & Hpre)].
    { exists ∅. split; [done|]. rewrite size_empty. lia. }
    apply prefix_cons_cases in Hpre as [->|(pre2 & -> & Hpre)].
    { exists {[n]}. split.
      - cbn. rewrite decide_False by set_solver. cbn. f_equal. set_solver.
      - rewrite size_singleton. lia. }
    destruct (IH pre2 Hpre) as (held & Hrun & Hsize). exists held.
    split; [|done].
    change (note_on n v 0 :: note_off n 0 d :: pre2)
      with (emitNote_spec n v d ++ pre2).
    rewrite run_notes_app, run_notes_note by set_solver. exact Hrun.
Qed.

(** A monophonic track that ends silent stays monophonic when a run of
    single notes follows. *)
Lemma monophonic_app (a b : list Message) :
  monophonic a → run_notes ∅ a = Some ∅ → monophonic b → monophonic (a ++ b).
Proof.
  intros Ha Hend Hb pre Hpre.
  destruct (decide (length pre <= length a)%nat) as [Hle|Hgt].
  - apply Ha. destruct Hpre as [k Hk].
    exists (drop (length pre) a).
    pose proof (f_equal (take (length pre)) Hk) as Htake.
    rewrite take_app_le, take_app_length in Htake by done.
    rewrite <- Htake at 1. by rewrite take_drop.
  - destruct Hpre as [k Hk].
    assert (Hpre : pre = a ++ take (length pre - length a) b).
    { pose proof (f_equal (take (length pre)) Hk) as Htake.
      rewrite take_app_length, take_app_ge in Htake by lia. done. }
    destruct (Hb (take (length pre - length a) b)) as (held & Hrun & Hsize).
    { exists (drop (length pre - length a) b). by rewrite take_drop. }
    exists held. split; [|done].
    rewrite Hpre, run_notes_app, Hend. exact Hrun.
Qed.

Lemma Forall_not_in_self (chord : list Z) (held : gset Z) (n : Z) :
  Forall (fun k => k ∉ held) chord → n ∉ chord →
  Forall (fun k => k ∉ {[n]} ∪ held) chord.
Proof.
  intros Hfree Hn. apply Forall_forall. intros k Hk.
  rewrite Forall_forall in Hfree. specialize (Hfree k Hk).
  assert (k ≠ n) by (intros ->; done). set_solver.
Qed.

Lemma run_notes_note_ons (held : gset Z) (v : Z) (chord : list Z) :
  NoDup chord → Forall (fun n => n ∉ held) chord →
  run_notes held ((fun n => note_on n v 0) <$> chord) =
    Some (list_to_set chord ∪ held).
Proof.
  intros Hdup. revert held.
  induction Hdup as [|n chord Hn Hdup IH]; intros held Hfree.
  - cbn. f_equal. set_solver.
  - apply Forall_cons in Hfree as [Hfree_n Hfree].
    cbn. rewrite decide_False by done. cbn. rewrite IH.
    + f_equal. set_solver.
    + by apply Forall_not_in_self.
Qed.

(** After a chord of distinct pitches the pitches beyond the third one are
    left on. *)
Lemma run_notes_chord (held : gset Z) (v n0 n1 n2 : Z) (more : list Z) :
  NoDup (n0 :: n1 :: n2 :: more) →
  Forall (fun n => n ∉ held) (n0 :: n1 :: n2 :: more) →
  run_notes held (pad_chord_events v (n0 :: n1 :: n2 :: more)) =
    Some (list_to_set more ∪ held).
Proof.
  intros Hdup Hfree. unfold pad_chord_events.
  rewrite run_notes_app, run_notes_note_ons by done.
  cbn [mbind option_bind zip_with]. rewrite zip_with_nil_r.
  apply NoDup_cons in Hdup as [H0 Hdup].
  apply NoDup_cons in Hdup as [H1 Hdup].
  apply NoDup_cons in Hdup as [H2 Hdup].
  apply Forall_cons in Hfree as [F0 Hfree].
  apply Forall_cons in Hfree as [F1 Hfree].
  apply Forall_cons in Hfree as [F2 Hfree].
  cbn [run_notes note_step list_to_set].
  rewrite decide_True by set_solver. cbn [mbind option_bind].
  rewrite decide_True by set_solver. cbn [mbind option_bind].
  rewrite decide_True by set_solver. cbn [mbind option_bind].
  f_equal. apply set_eq. intros k.
  rewrite !elem_of_difference, !elem_of_union, !elem_of_singleton,
    !elem_of_list_to_set.
  rewrite !not_elem_of_cons in H0, H1.
  split; [tauto|]. intros [Hk|Hk].
  - repeat split; try tauto; intros ->; rewrite ?not_elem_of_cons in H0; tauto.
  - repeat split; try tauto; intros ->; tauto.
Qed.

Lemma run_notes_chords (v : Z) (chords : list (list Z)) :
  Forall (fun chord => length chord = 3%nat ∧ NoDup chord) chords →
  run_notes ∅ (concat (pad_chord_events v <$> chords)) = Some ∅.
Proof.
  induction 1 as [|chord chords [Hlen Hdup] _ IH]; [done|].
  destruct chord as [|n0 [|n1 [|n2 [|n3 more]]]]; try discriminate.
  cbn [fmap list_fmap concat].
  rewrite run_notes_app, run_notes_chord; [|done|].
  - cbn [mbind option_bind list_to_set].
    replace (∅ ∪ ∅ : gset Z) with (∅ : gset Z) by set_solver. exact IH.
  - repeat constructor; set_solver.
Qed.

Lemma sum_deltas_chord (v n0 n1 n2 : Z) (more : list Z) :
  sum_deltas (pad_chord_events v (n0 :: n1 :: n2 :: more)) = 960.
Proof.
  unfold pad_chord_events. rewrite sum_deltas_app, sum_deltas_note_ons.
  cbn [zip_with]. rewrite zip_with_nil_r. reflexivity.
Qed.

Lemma chord_loop (c : Config) (h : Heap) (pad : loc) (evs : list Message)
    (chords : list (list Z)) :
  track_objs h !! pad = Some evs →
  is_data_byte (pad_velocity c) = true →
  Forall (fun chord => (3 <= length chord)%nat
                       ∧ Forall (fun n => is_data_byte n = true) chord)
         chords →
  for_each chords (pad_chord c pad) h =
    (Ok tt,
     put_track h pad
       (evs ++ concat (pad_chord_events (pad_velocity c) <$> chords))).
Proof.
  intros Hpad Hv Hchords.
  eapply (for_each_appends _ _ _ _ _ chords h evs Hchords Hpad).
  Unshelve. intros chord h0 evs0 [Hlen Hrange] Ht0.
  rewrite (pad_chord_any c h0 pad evs0 chord Ht0 Hv Hrange).
  unfold pad_chord_result. by rewrite decide_True.
Qed.

(** ** The note loops *)

Lemma melody_note_run (c : Config) (h : Heap) (melody : loc)
    (evs : list Message) (i : nat) (note : Z) :
  track_objs h !! melody = Some evs →
  is_data_byte (melody_velocity c) = true → is_data_byte note = true →
  melody_note c melody (i, note) h =
    (Ok tt,
     put_track h melody
       (evs ++ emitNote_spec note (melody_velocity c) (melody_duration i))).
Proof.
  intros Ht Hv Hn. unfold melody_note. unfold_H.
  rewrite Message_note_on_ok, Message_note_off_ok by done.
  repeat append_step. do 2 f_equal. by rewrite <- app_assoc.
Qed.

Lemma arp_note_run (c : Config) (h : Heap) (arp : loc)
    (evs : list Message) (note : Z) :
  track_objs h !! arp = Some evs →
  is_data_byte (arp_velocity c) = true → is_data_byte note = true →
  arp_note c arp note h =
    (Ok tt,
     put_track h arp (evs ++ emitNote_spec note (arp_velocity c) 240)).
Proof.
  intros Ht Hv Hn. unfold arp_note. unfold_H.
  rewrite Message_note_on_ok, Message_note_off_ok by done.
  repeat append_step. do 2 f_equal. by rewrite <- app_assoc.
Qed.

Lemma Forall_imap_snd {A} (Q : A → Prop) (l : list A) (g : nat → nat) :
  Forall Q l → Forall (fun p : nat * A => Q p.2) (imap (fun i x => (g i, x)) l).
Proof.
  intros Hl. revert g. induction Hl as [|x l Hx Hl IH]; intros g.
  - constructor.
  - rewrite imap_cons. constructor; [done|]. apply (IH (g ∘ S)).
Qed.

Lemma phrase_loop (c : Config) (h : Heap) (melody : loc)
    (evs : list Message) (phrase : list Z) :
  track_objs h !! melody = Some evs →
  is_data_byte (melody_velocity c) = true →
  Forall (fun n => is_data_byte n = true) phrase →
  for_each (enumerate phrase) (melody_note c melody) h =
    (Ok tt,
     put_track h melody
       (evs ++ melody_phrase_events (melody_velocity c) phrase)).
Proof.
  intros Ht Hv Hphrase. unfold melody_phrase_events.
  apply (for_each_appends (fun p : nat * Z => is_data_byte p.2 = true));
    [|exact (Forall_imap_snd (fun n => is_data_byte n = true) phrase id Hphrase)
     |done].
  intros [i note] h0 evs0 Hn Ht0. by apply melody_note_run.
Qed.

Lemma melody_loop (c : Config) (h : Heap) (melody : loc)
    (evs : list Message) (phrases : list (list Z)) :
  track_objs h !! melody = Some evs →
  is_data_byte (melody_velocity c) = true →
  Forall (Forall (fun n => is_data_byte n = true)) phrases →
  for_each phrases (fun phrase =>
      for_each (enumerate phrase) (melody_note c melody)) h =
    (Ok tt,
     put_track h melody
       (evs ++ concat (melody_phrase_events (melody_velocity c) <$> phrases))).
Proof.
  intros Ht Hv Hphrases.
  apply (for_each_appends (Forall (fun n => is_data_byte n = true)));
    [|done|done].
  intros phrase h0 evs0 Hphrase Ht0. by apply phrase_loop.
Qed.

Lemma pattern_loop (c : Config) (h : Heap) (arp : loc)
    (evs : list Message) (pattern : list Z) :
  track_objs h !! arp = Some evs →
  is_data_byte (arp_velocity c) = true →
  Forall (fun n => is_data_byte n = true) pattern →
  for_each pattern (arp_note c arp) h =
    (Ok tt, put_track h arp (evs ++ arp_pattern_events (arp_velocity c) pattern)).
Proof.
  intros Ht Hv Hpattern. unfold arp_pattern_events.
  apply (for_each_appends (fun n => is_data_byte n = true)); [|done|done].
  intros note h0 evs0 Hn Ht0. by apply arp_note_run.
Qed.

Lemma arp_loop (c : Config) (h : Heap) (arp : loc)
    (evs : list Message) (patterns : list (list Z)) :
  track_objs h !! arp = Some evs →
  is_data_byte (arp_velocity c) = true →
  Forall (Forall (fun n => is_data_byte n = true)) patterns →
  for_each patterns (fun pattern => for_each pattern (arp_note c arp)) h =
    (Ok tt,
     put_track h arp
       (evs ++ concat (arp_pattern_events (arp_velocity c) <$> patterns))).
Proof.
  intros Ht Hv Hpatterns.
  apply (for_each_appends (Forall (fun n => is_data_byte n = true)));
    [|done|done].
  intros pattern h0 evs0 Hpattern Ht0. by apply pattern_loop.
Qed.

Lemma enumerate_snoc {A} (l : list A) (x : A) :
  enumerate (l ++ [x]) = enumerate l ++ [(length l, x)].
Proof.
  unfold enumerate. rewrite imap_app. cbn. by rewrite Nat.add_0_r.
Qed.

Lemma sum_deltas_phrase (v : Z) (phrase : list Z) :
  sum_deltas (melody_phrase_events v phrase) =
    480 * (Z.of_nat (length phrase) + Z.of_nat (length phrase) / 4).
Proof.
  unfold melody_phrase_events.
  induction phrase as [|x phrase IH] using rev_ind; [done|].
  rewrite enumerate_snoc, fmap_app, concat_app, sum_deltas_app, IH.
  rewrite length_app, Nat2Z.inj_add. cbn [length fmap list_fmap concat fst snd].
  change (sum_deltas (emitNote_spec x v (melody_duration (length phrase)) ++ []))
    with (0 + (melody_duration (length phrase) + 0)).
  unfold melody_duration.
  destruct (Z.eqb_spec (Z.of_nat (length phrase) mod 4) 3) as [Hm|Hm];
    change (Z.of_nat 1) with 1;
    Z.div_mod_to_equations; lia.
Qed.

Lemma sum_deltas_pattern (v : Z) (pattern : list Z) :
  sum_deltas (arp_pattern_events v pattern) = 240 * Z.of_nat (length pattern).
Proof.
  unfold arp_pattern_events. induction pattern as [|x pattern IH]; [done|].
  cbn [fmap list_fmap concat length]. rewrite sum_deltas_app, IH.
  change (sum_deltas (emitNote_spec x v 240)) with 240. lia.
Qed.

Lemma length_phrase_events (v : Z) (phrase : list Z) :
  length (melody_phrase_events v phrase) = (2 * length phrase)%nat.
Proof.
  unfold melody_phrase_events.
  induction phrase as [|x phrase IH] using rev_ind; [done|].
  rewrite enumerate_snoc, fmap_app, concat_app, !length_app, IH. cbn. lia.
Qed.

Lemma length_pattern_events (v : Z) (pattern : list Z) :
  length (arp_pattern_events v pattern) = (2 * length pattern)%nat.
Proof.
  unfold arp_pattern_events. induction pattern as [|x pattern IH]; [done|].
  cbn [fmap list_fmap concat]. rewrite length_app, IH. cbn. lia.
Qed.

Lemma single_notes_silent (parts : list (list Message)) :
  Forall (fun p => monophonic p ∧ run_notes ∅ p = Some ∅) parts →
  monophonic (concat parts) ∧ run_notes ∅ (concat parts) = Some ∅.
Proof.
  induction 1 as [|p parts [Hmono Hend] _ [IHmono IHend]].
  - split; [|done]. intros pre Hpre. apply prefix_nil_inv in Hpre as ->.
    exists ∅. split; [done|]. rewrite size_empty. lia.
  - cbn [concat]. split; [by apply monophonic_app|].
    rewrite run_notes_app, Hend. exact IHend.
Qed.

Lemma phrase_events_silent (v : Z) (phrase : list Z) :
  monophonic (melody_phrase_events v phrase)
  ∧ run_notes ∅ (melody_phrase_events v phrase) = Some ∅.
Proof.
  unfold melody_phrase_events. split.
  - apply monophonic_single_notes, Forall_fmap, Forall_forall.
    intros [i n] _. cbn. eauto.
  - apply run_notes_single_notes, Forall_fmap, Forall_forall.
    intros [i n] _. cbn. eexists _, _, _. split; [done|]. set_solver.
Qed.

Lemma pattern_events_silent (v : Z) (pattern : list Z) :
  monophonic (arp_pattern_events v pattern)
  ∧ run_notes ∅ (arp_pattern_events v pattern) = Some ∅.
Proof.
  unfold arp_pattern_events. split.
  - apply monophonic_single_notes, Forall_fmap, Forall_forall.
    intros n _. cbn. eauto.
  - apply run_notes_single_notes, Forall_fmap, Forall_forall.
    intros n _. cbn. eexists _, _, _. split; [done|]. set_solver.
Qed.

(** ** Ticks *)

Lemma abs_times_app (clock : Z) (a b : list Message) :
  abs_times clock (a ++ b) =
    abs_times clock a ++ abs_times (clock + sum_deltas a) b.
Proof.
  revert clock. induction a as [|m a IH]; intros clock.
  - cbn. by rewrite Z.add_0_r.
  - cbn [app abs_times]. rewrite IH. do 3 f_equal.
    change (sum_deltas (m :: a)) with (msg_time m + sum_deltas a). lia.
Qed.

Lemma abs_times_note_ons (clock v : Z) (notes : list Z) :
  abs_times clock ((fun n => note_on n v 0) <$> notes) =
    replicate (length notes) clock.
Proof.
  induction notes as [|n notes IH]; [done|].
  cbn [fmap list_fmap abs_times msg_time length replicate].
  rewrite Z.add_0_r. f_equal. exact IH.
Qed.

Lemma abs_times_chord (clock v n0 n1 n2 : Z) (more : list Z) :
  abs_times clock (pad_chord_events v (n0 :: n1 :: n2 :: more)) =
    replicate (3 + length more) clock ++ replicate 3 (clock + 960).
Proof.
  unfold pad_chord_events.
  rewrite abs_times_app, abs_times_note_ons, sum_deltas_note_ons.
  cbn [zip_with]. rewrite zip_with_nil_r.
  cbn [abs_times msg_time replicate length Nat.add].
  rewrite !Z.add_0_r. reflexivity.
Qed.

(** ** References *)

Lemma tracks_of_put_track (h : Heap) (mid t : loc) (f : MidiFile)
    (evs' : list Message) (trks : list (list Message)) :
  file_objs h !! mid = Some f →
  tracks_of h mid = Some trks →
  tracks_of (put_track h t evs') mid =
    Some (zip_with (fun r old => if decide (r = t) then evs' else old)
            (tracks f) trks).
Proof.
  intros Hf Htrks. unfold tracks_of in *. cbn [put_track file_objs track_objs].
  rewrite Hf in *. cbn [mbind option_bind] in *.
  apply mapM_Some_1 in Htrks. apply mapM_Some_2.
  induction Htrks as [|r old rs olds Hr _ IH]; [constructor|].
  cbn [zip_with]. constructor; [|exact IH].
  destruct (decide (r = t)) as [->|Hne].
  - apply lookup_insert_eq.
  - by rewrite lookup_insert_ne.
Qed.

(** * Properties of the statements of the script *)

(** X1: a track that was appended to [mid.tracks] (lines 7, 12, 31, 46) is
    shared, not copied: a message appended to the track afterwards (lines 8,
    13, 24-27, ...) shows in the tracks read through the file, at every
    position that holds the reference; the other tracks are as before. *)
Theorem X1_append_seen_through_file (h : Heap) (mid t : loc) (f : MidiFile)
    (evs : list Message) (msg : Message) (trks : list (list Message)) :
  file_objs h !! mid = Some f →
  track_objs h !! t = Some evs →
  tracks_of h mid = Some trks →
  ∃ h',
    track_append t msg h = (Ok tt, h')
    ∧ tracks_of h' mid =
        Some (zip_with (fun r old => if decide (r = t) then evs ++ [msg] else old)
                (tracks f) trks)
    ∧ file_objs h' = file_objs h
    ∧ ∀ t', t' ≠ t → track_objs h' !! t' = track_objs h !! t'.
Proof.
  intros Hf Ht Htrks. exists (put_track h t (evs ++ [msg])).
  split; [by apply track_append_put|].
  split; [by apply tracks_of_put_track|]. split; [done|].
  intros t' Hne. cbn. by rewrite lookup_insert_ne.
Qed.

Lemma X1_append_seen_through_file_witness :
  file_objs one_file_heap !! 0%nat = Some (mkMidiFile 480 [0%nat])
  ∧ track_objs one_file_heap !! 0%nat = Some []
  ∧ tracks_of one_file_heap 0%nat = Some [[]]
  ∧ ∃ h',
      track_append 0%nat (note_on 60 64 0) one_file_heap = (Ok tt, h')
      ∧ tracks_of h' 0%nat = Some [[note_on 60 64 0]].
Proof.
  split; [reflexivity|]. split; [reflexivity|]. split; [reflexivity|].
  destruct (X1_append_seen_through_file one_file_heap 0%nat 0%nat
              (mkMidiFile 480 [0%nat]) [] (note_on 60 64 0) [[]]
              eq_refl eq_refl eq_refl) as (h' & Hrun & Htracks & _).
  exists h'. split; [exact Hrun|exact Htracks].
Defined.

(** X2: the body of the chord loop (lines 23-27), on a chord of any length
    with pitches in 0..127: it appends a NoteOn at delta 0 for every pitch,
    then the NoteOffs of the first three pitches at deltas 960, 0, 0; on a
    chord of fewer than three pitches it raises [IndexError] after it has
    appended the NoteOns and the NoteOffs of the pitches that exist. *)
Theorem X2_pad_chord_any_length (c : Config) (h : Heap) (pad : loc)
    (evs : list Message) (chord : list Z) :
  track_objs h !! pad = Some evs →
  is_data_byte (pad_velocity c) = true →
  Forall (fun n => is_data_byte n = true) chord →
  pad_chord c pad chord h =
    (if decide (3 <= length chord)%nat then Ok tt else Err IndexError,
     put_track h pad
       (evs ++ ((fun n => note_on n (pad_velocity c) 0) <$> chord)
            ++ zip_with (fun n d => note_off n 0 d) chord [960; 0; 0])).
Proof. apply pad_chord_any. Qed.

Lemma X2_pad_chord_any_length_witness :
  track_objs one_track_heap !! 0%nat = Some []
  ∧ is_data_byte (pad_velocity script_config) = true
  ∧ Forall (fun n => is_data_byte n = true) [60; 64]
  ∧ pad_chord script_config 0%nat [60; 64] one_track_heap =
      (Err IndexError,
       put_track one_track_heap 0%nat
         [note_on 60 40 0; note_on 64 40 0;
          note_off 60 0 960; note_off 64 0 0]).
Proof.
  assert (Hr : Forall (fun n => is_data_byte n = true) [60; 64])
    by (repeat constructor).
  split; [reflexivity|]. split; [reflexivity|]. split; [exact Hr|].
  exact (X2_pad_chord_any_length script_config one_track_heap 0%nat []
           [60; 64] eq_refl eq_refl Hr).
Defined.

(** X3: the chord loop (lines 22-27) over any list of chords of three
    distinct pitches in 0..127, on a track that ends with no pitch on:
    it returns, the track stays well formed, and it grows by six events and
    960 ticks per chord. *)
Theorem X3_chord_loop_well_formed (c : Config) (h : Heap) (pad : loc)
    (evs : list Message) (chords : list (list Z)) :
  track_objs h !! pad = Some evs →
  is_data_byte (pad_velocity c) = true →
  Forall (fun chord => length chord = 3%nat ∧ NoDup chord
                       ∧ Forall (fun n => is_data_byte n = true) chord)
         chords →
  run_notes ∅ evs = Some ∅ →
  ∃ new,
    for_each chords (pad_chord c pad) h = (Ok tt, put_track h pad (evs ++ new))
    ∧ well_formed (evs ++ new)
    ∧ length new = (6 * length chords)%nat
    ∧ sum_deltas new = 960 * Z.of_nat (length chords).
Proof.
  intros Hpad Hv Hchords Hend.
  exists (concat (pad_chord_events (pad_velocity c) <$> chords)).
  split; [|split; [|split]].
  - apply chord_loop; [done|done|].
    eapply Forall_impl; [exact Hchords|]. cbn. intros chord (Hlen & _ & Hr).
    split; [lia|done].
  - apply run_notes_well_formed. rewrite run_notes_app, Hend.
    apply run_notes_chords. eapply Forall_impl; [exact Hchords|].
    cbn. tauto.
  - clear Hpad Hend. induction Hchords as [|chord chords (Hlen & _) _ IH];
      [done|].
    destruct chord as [|n0 [|n1 [|n2 [|n3 more]]]]; try discriminate.
    cbn [fmap list_fmap concat]. rewrite length_app, IH. cbn. lia.
  - clear Hpad Hend. induction Hchords as [|chord chords (Hlen & _) _ IH];
      [done|].
    destruct chord as [|n0 [|n1 [|n2 [|n3 more]]]]; try discriminate.
    cbn [fmap list_fmap concat]. rewrite sum_deltas_app, IH, sum_deltas_chord.
    cbn [length]. lia.
Qed.

Lemma X3_chord_loop_well_formed_witness :
  track_objs one_track_heap !! 0%nat = Some []
  ∧ is_data_byte (pad_velocity script_config) = true
  ∧ Forall (fun chord => length chord = 3%nat ∧ NoDup chord
                         ∧ Forall (fun n => is_data_byte n = true) chord)
           [[60; 64; 67]; [62; 65; 69]]
  ∧ run_notes ∅ ([] : list Message) = Some ∅
  ∧ ∃ new,
      for_each [[60; 64; 67]; [62; 65; 69]] (pad_chord script_config 0%nat)
        one_track_heap = (Ok tt, put_track one_track_heap 0%nat ([] ++ new))
      ∧ well_formed ([] ++ new)
      ∧ length new = (6 * 2)%nat
      ∧ sum_deltas new = 960 * Z.of_nat 2.
Proof.
  assert (Hc : Forall (fun chord => length chord = 3%nat ∧ NoDup chord
                         ∧ Forall (fun n => is_data_byte n = true) chord)
                 [[60; 64; 67]; [62; 65; 69]]).
  { repeat constructor; apply (bool_decide_unpack _); vm_compute; exact I. }
  split; [reflexivity|]. split; [reflexivity|]. split; [exact Hc|].
  split; [reflexivity|].
  exact (X3_chord_loop_well_formed script_config one_track_heap 0%nat []
           [[60; 64; 67]; [62; 65; 69]] eq_refl eq_refl Hc eq_refl).
Defined.

(** X4: a chord with a fourth pitch that differs from its first three
    (lines 23-27 close [chord[0]], [chord[1]] and [chord[2]] only): the body
    of the chord loop returns, but the NoteOn of the fourth pitch has no
    NoteOff after it, so the track is not well formed. *)
Theorem X4_fourth_pitch_left_on (c : Config) (h : Heap) (pad : loc)
    (evs : list Message) (n0 n1 n2 n3 : Z) (more : list Z) :
  track_objs h !! pad = Some evs →
  is_data_byte (pad_velocity c) = true →
  Forall (fun n => is_data_byte n = true) (n0 :: n1 :: n2 :: n3 :: more) →
  n3 ∉ [n0; n1; n2] →
  ∃ new,
    pad_chord c pad (n0 :: n1 :: n2 :: n3 :: more) h =
      (Ok tt, put_track h pad (evs ++ new))
    ∧ ¬ every_note_closed (evs ++ new)
    ∧ ¬ well_formed (evs ++ new).
Proof.
  intros Hpad Hv Hr Hn3.
  exists (pad_chord_events (pad_velocity c) (n0 :: n1 :: n2 :: n3 :: more)).
  split.
  { rewrite (pad_chord_any c h pad evs _ Hpad Hv Hr).
    unfold pad_chord_result. rewrite decide_True by (cbn; lia). reflexivity. }
  assert (Hopen : ¬ every_note_closed
            (evs ++ pad_chord_events (pad_velocity c)
                      (n0 :: n1 :: n2 :: n3 :: more))).
  { intros Hclosed.
    destruct (Hclosed
      (evs ++ [note_on n0 (pad_velocity c) 0; note_on n1 (pad_velocity c) 0;
               note_on n2 (pad_velocity c) 0])
      n3 (pad_velocity c) 0
      (((fun n => note_on n (pad_velocity c) 0) <$> more) ++
       [note_off n0 0 960; note_off n1 0 0; note_off n2 0 0]))
      as (v' & t' & Hoff).
    - unfold pad_chord_events. cbn [fmap list_fmap zip_with].
      rewrite <- app_assoc. reflexivity.
    - apply elem_of_app in Hoff as [Hoff|Hoff].
      + apply list_elem_of_fmap in Hoff as (k & Hk & _). discriminate.
      + apply Hn3. rewrite !elem_of_cons in Hoff. rewrite !elem_of_cons.
        destruct Hoff as [Hoff|[Hoff|[Hoff|Hoff]]];
          [inversion Hoff; tauto..|]. by apply elem_of_nil in Hoff. }
  split; [exact Hopen|]. intros (Hclosed & _). by apply Hopen.
Qed.

Lemma X4_fourth_pitch_left_on_witness :
  track_objs one_track_heap !! 0%nat = Some []
  ∧ is_data_byte (pad_velocity script_config) = true
  ∧ Forall (fun n => is_data_byte n = true) [62; 65; 69; 74]
  ∧ (74 ∉ ([62; 65; 69] : list Z))
  ∧ ∃ new,
      pad_chord script_config 0%nat [62; 65; 69; 74] one_track_heap =
        (Ok tt, put_track one_track_heap 0%nat ([] ++ new))
      ∧ ¬ every_note_closed ([] ++ new)
      ∧ ¬ well_formed ([] ++ new).
Proof.
  assert (Hr : Forall (fun n => is_data_byte n = true) [62; 65; 69; 74])
    by (repeat constructor).
  assert (Hn : 74 ∉ ([62; 65; 69] : list Z)).
  { apply (bool_decide_unpack _). vm_compute. exact I. }
  split; [reflexivity|]. split; [reflexivity|]. split; [exact Hr|].
  split; [exact Hn|].
  exact (X4_fourth_pitch_left_on script_config one_track_heap 0%nat []
           62 65 69 74 [] eq_refl eq_refl Hr Hn).
Defined.

(** X5: the notes of a chord sound together (lines 23-27): when the chord
    of at least three pitches starts at tick [clock], every NoteOn falls on
    tick [clock] and the three NoteOffs all fall on tick [clock + 960]. *)
Theorem X5_chord_simultaneous (c : Config) (h : Heap) (pad : loc)
    (evs : list Message) (chord : list Z) (clock : Z) :
  track_objs h !! pad = Some evs →
  is_data_byte (pad_velocity c) = true →
  Forall (fun n => is_data_byte n = true) chord →
  (3 <= length chord)%nat →
  ∃ new,
    pad_chord c pad chord h = (Ok tt, put_track h pad (evs ++ new))
    ∧ abs_times clock new =
        replicate (length chord) clock ++ replicate 3 (clock + 960).
Proof.
  intros Hpad Hv Hr Hlen.
  exists (pad_chord_events (pad_velocity c) chord). split.
  - rewrite (pad_chord_any c h pad evs _ Hpad Hv Hr).
    unfold pad_chord_result. by rewrite decide_True.
  - destruct chord as [|n0 [|n1 [|n2 more]]]; cbn in Hlen; try lia.
    apply abs_times_chord.
Qed.

Lemma X5_chord_simultaneous_witness :
  track_objs one_track_heap !! 0%nat = Some []
  ∧ is_data_byte (pad_velocity script_config) = true
  ∧ Forall (fun n => is_data_byte n = true) [55; 59; 62]
  ∧ (3 <= length [55; 59; 62])%nat
  ∧ ∃ new,
      pad_chord script_config 0%nat [55; 59; 62] one_track_heap =
        (Ok tt, put_track one_track_heap 0%nat ([] ++ new))
      ∧ abs_times 1920 new = [1920; 1920; 1920; 2880; 2880; 2880].
Proof.
  assert (Hr : Forall (fun n => is_data_byte n = true) [55; 59; 62])
    by (repeat constructor).
  assert (Hlen : (3 <= length [55; 59; 62])%nat) by (cbn; lia).
  split; [reflexivity|]. split; [reflexivity|]. split; [exact Hr|].
  split; [exact Hlen|].
  exact (X5_chord_simultaneous script_config one_track_heap 0%nat []
           [55; 59; 62] 1920 eq_refl eq_refl Hr Hlen).
Defined.

(** X6: the loop over the notes of a phrase (lines 39-42), on a phrase of
    any length with pitches in 0..127: it appends for every note a NoteOn at
    delta 0 and its NoteOff, two events per note, and the phrase of [n]
    notes lasts 480 * (n + n / 4) ticks, every fourth note being long. *)
Theorem X6_phrase_duration (c : Config) (h : Heap) (melody : loc)
    (evs : list Message) (phrase : list Z) :
  track_objs h !! melody = Some evs →
  is_data_byte (melody_velocity c) = true →
  Forall (fun n => is_data_byte n = true) phrase →
  ∃ new,
    for_each (enumerate phrase) (melody_note c melody) h =
      (Ok tt, put_track h melody (evs ++ new))
    ∧ new =
        concat (imap (fun i note =>
                        [note_on note (melody_velocity c) 0;
                         note_off note 0
                           (if Z.of_nat i mod 4 =? 3 then 960 else 480)])
                     phrase)
    ∧ length new = (2 * length phrase)%nat
    ∧ sum_deltas new =
        480 * (Z.of_nat (length phrase) + Z.of_nat (length phrase) / 4).
Proof.
  intros Ht Hv Hr. exists (melody_phrase_events (melody_velocity c) phrase).
  split; [by apply phrase_loop|]. split.
  - unfold melody_phrase_events, enumerate. rewrite fmap_imap. reflexivity.
  - split; [apply length_phrase_events|apply sum_deltas_phrase].
Qed.

Lemma X6_phrase_duration_witness :
  track_objs one_track_heap !! 0%nat = Some []
  ∧ is_data_byte (melody_velocity script_config) = true
  ∧ Forall (fun n => is_data_byte n = true) [60; 62; 64; 65; 67]
  ∧ ∃ new,
      for_each (enumerate [60; 62; 64; 65; 67])
        (melody_note script_config 0%nat) one_track_heap =
        (Ok tt, put_track one_track_heap 0%nat ([] ++ new))
      ∧ length new = (2 * 5)%nat
      ∧ sum_deltas new = 480 * (Z.of_nat 5 + Z.of_nat 5 / 4).
Proof.
  assert (Hr : Forall (fun n => is_data_byte n = true) [60; 62; 64; 65; 67])
    by (repeat constructor).
  split; [reflexivity|]. split; [reflexivity|]. split; [exact Hr|].
  destruct (X6_phrase_duration script_config one_track_heap 0%nat []
              [60; 62; 64; 65; 67] eq_refl eq_refl Hr)
    as (new & Hrun & _ & Hlen & Hsum).
  exists new. split; [exact Hrun|]. split; [exact Hlen|exact Hsum].
Defined.

(** X7: the melody loop (lines 38-42) over any list of phrases with pitches
    in 0..127, repeated pitches included, on a track that is monophonic and
    ends with no pitch on: it returns, and the track stays well formed and
    monophonic, every note being released before the next one starts. *)
Theorem X7_melody_loop_monophonic (c : Config) (h : Heap) (melody : loc)
    (evs : list Message) (phrases : list (list Z)) :
  track_objs h !! melody = Some evs →
  is_data_byte (melody_velocity c) = true →
  Forall (Forall (fun n => is_data_byte n = true)) phrases →
  monophonic evs → run_notes ∅ evs = Some ∅ →
  ∃ new,
    for_each phrases (fun phrase =>
        for_each (enumerate phrase) (melody_note c melody)) h =
      (Ok tt, put_track h melody (evs ++ new))
    ∧ well_formed (evs ++ new)
    ∧ monophonic (evs ++ new).
Proof.
  intros Ht Hv Hr Hmono Hend.
  exists (concat (melody_phrase_events (melody_velocity c) <$> phrases)).
  split; [by apply melody_loop|].
  destruct (single_notes_silent
              (melody_phrase_events (melody_velocity c) <$> phrases))
    as [Hmono' Hend'].
  { apply Forall_fmap, Forall_forall. intros phrase _.
    apply phrase_events_silent. }
  split.
  - apply run_notes_well_formed. by rewrite run_notes_app, Hend.
  - by apply monophonic_app.
Qed.

Lemma program_change_monophonic (p : Z) :
  monophonic [program_change p 0] ∧ run_notes ∅ [program_change p 0] = Some ∅.
Proof.
  split; [|done]. intros pre Hpre.
  apply prefix_cons_cases in Hpre as [->|(pre' & -> & Hpre)].
  - exists ∅. split; [done|]. rewrite size_empty. lia.
  - apply prefix_nil_inv in Hpre as ->. exists ∅. split; [done|].
    rewrite size_empty. lia.
Qed.

Lemma X7_melody_loop_monophonic_witness :
  track_objs (put_track empty_heap 0%nat [program_change 73 0]) !! 0%nat =
    Some [program_change 73 0]
  ∧ is_data_byte (melody_velocity script_config) = true
  ∧ Forall (Forall (fun n => is_data_byte n = true)) [[60; 60]; [62]]
  ∧ monophonic [program_change 73 0]
  ∧ run_notes ∅ [program_change 73 0] = Some ∅
  ∧ ∃ new,
      for_each [[60; 60]; [62]] (fun phrase =>
          for_each (enumerate phrase) (melody_note script_config 0%nat))
        (put_track empty_heap 0%nat [program_change 73 0]) =
        (Ok tt,
         put_track (put_track empty_heap 0%nat [program_change 73 0]) 0%nat
           ([program_change 73 0] ++ new))
      ∧ well_formed ([program_change 73 0] ++ new)
      ∧ monophonic ([program_change 73 0] ++ new).
Proof.
  assert (Hr : Forall (Forall (fun n => is_data_byte n = true))
                 [[60; 60]; [62]]) by (repeat constructor).
  destruct (program_change_monophonic 73) as [Hmono Hend].
  split; [reflexivity|]. split; [reflexivity|]. split; [exact Hr|].
  split; [exact Hmono|]. split; [exact Hend|].
  exact (X7_melody_loop_monophonic script_config
           (put_track empty_heap 0%nat [program_change 73 0]) 0%nat
           [program_change 73 0] [[60; 60]; [62]] eq_refl eq_refl Hr
           Hmono Hend).
Defined.

(** X8: the arpeggio loop (lines 56-59) over any list of patterns with
    pitches in 0..127, on a track that is monophonic and ends with no pitch
    on: it returns, it appends two events and 240 ticks per note, and the
    track stays well formed and monophonic. *)
Theorem X8_arp_loop (c : Config) (h : Heap) (arp : loc)
    (evs : list Message) (patterns : list (list Z)) :
  track_objs h !! arp = Some evs →
  is_data_byte (arp_velocity c) = true →
  Forall (Forall (fun n => is_data_byte n = true)) patterns →
  monophonic evs → run_notes ∅ evs = Some ∅ →
  ∃ new,
    for_each patterns (fun pattern => for_each pattern (arp_note c arp)) h =
      (Ok tt, put_track h arp (evs ++ new))
    ∧ length new = (2 * length (concat patterns))%nat
    ∧ sum_deltas new = 240 * Z.of_nat (length (concat patterns))
    ∧ well_formed (evs ++ new)
    ∧ monophonic (evs ++ new).
Proof.
  intros Ht Hv Hr Hmono Hend.
  exists (concat (arp_pattern_events (arp_velocity c) <$> patterns)).
  split; [by apply arp_loop|].
  destruct (single_notes_silent
              (arp_pattern_events (arp_velocity c) <$> patterns))
    as [Hmono' Hend'].
  { apply Forall_fmap, Forall_forall. intros pattern _.
    apply pattern_events_silent. }
  split; [|split; [|split]].
  - clear. induction patterns as [|pattern patterns IH]; [done|].
    cbn [fmap list_fmap concat]. rewrite !length_app, IH, length_pattern_events.
    lia.
  - clear. induction patterns as [|pattern patterns IH]; [done|].
    cbn [fmap list_fmap concat].
    rewrite sum_deltas_app, IH, sum_deltas_pattern, length_app. lia.
  - apply run_notes_well_formed. by rewrite run_notes_app, Hend.
  - by apply monophonic_app.
Qed.

Lemma X8_arp_loop_witness :
  track_objs (put_track empty_heap 0%nat [program_change 46 0]) !! 0%nat =
    Some [program_change 46 0]
  ∧ is_data_byte (arp_velocity script_config) = true
  ∧ Forall (Forall (fun n => is_data_byte n = true)) [[62; 65]; [69]]
  ∧ monophonic [program_change 46 0]
  ∧ run_notes ∅ [program_change 46 0] = Some ∅
  ∧ ∃ new,
      for_each [[62; 65]; [69]] (fun pattern =>
          for_each pattern (arp_note script_config 0%nat))
        (put_track empty_heap 0%nat [program_change 46 0]) =
        (Ok tt,
         put_track (put_track empty_heap 0%nat [program_change 46 0]) 0%nat
           ([program_change 46 0] ++ new))
      ∧ length new = (2 * length (concat [[62; 65]; [69]]))%nat
      ∧ sum_deltas new = 240 * Z.of_nat (length (concat [[62; 65]; [69]]))
      ∧ well_formed ([program_change 46 0] ++ new)
      ∧ monophonic ([program_change 46 0] ++ new).
Proof.
  assert (Hr : Forall (Forall (fun n => is_data_byte n = true))
                 [[62; 65]; [69]]) by (repeat constructor).
  destruct (program_change_monophonic 46) as [Hmono Hend].
  split; [reflexivity|]. split; [reflexivity|]. split; [exact Hr|].
  split; [exact Hmono|]. split; [exact Hend|].
  exact (X8_arp_loop script_config
           (put_track empty_heap 0%nat [program_change 46 0]) 0%nat
           [program_change 46 0] [[62; 65]; [69]] eq_refl eq_refl Hr
           Hmono Hend).
Defined.

(** X9: the whole build (lines 3-59) with any positive resolution, any
    positive tempo below 2^24 (the three bytes of the format), and any
    programs and velocities in 0..127: it returns, and
    [mid.tracks] holds, in order, the control track with the one tempo
    event, then the pad, melody and arpeggio tracks, each made of its own
    program change followed by the events of its loop at its own velocity;
    no value of one track shows in another. *)
Theorem X9_build_any_config (c : Config) :
  0 < ticksPerBeat c → 0 < tempoMicrosecondsPerBeat c < 2 ^ 24 →
  is_data_byte (pad_program c) = true →
  is_data_byte (melody_program c) = true →
  is_data_byte (arp_program c) = true →
  is_data_byte (pad_velocity c) = true →
  is_data_byte (melody_velocity c) = true →
  is_data_byte (arp_velocity c) = true →
  ∃ mid h f,
    build c empty_heap = (Ok mid, h)
    ∧ file_objs h !! mid = Some f
    ∧ ticks_per_beat f = ticksPerBeat c
    ∧ tracks_of h mid =
        Some [ [set_tempo (tempoMicrosecondsPerBeat c) 0];
               program_change (pad_program c) 0 ::
                 concat (pad_chord_events (pad_velocity c)
                           <$> repeat_list pad_chords 2);
               program_change (melody_program c) 0 ::
                 concat (melody_phrase_events (melody_velocity c)
                           <$> [phrase_a; phrase_b; phrase_a; phrase_c]);
               program_change (arp_program c) 0 ::
                 concat (arp_pattern_events (arp_velocity c)
                           <$> repeat_list arp_patterns 4) ].
Proof.
  destruct c as [tpb tempo pp mp ap pv mv av]. cbn [ticksPerBeat
    tempoMicrosecondsPerBeat pad_program melody_program arp_program
    pad_velocity melody_velocity arp_velocity].
  intros Htpb [Htempo Htempo'] Hpp Hmp Hap Hpv Hmv Hav.
  apply Z.ltb_lt in Htpb, Htempo, Htempo'.
  unfold build, pad_chord, melody_note, arp_note, MidiFile_new,
    MetaMessage_set_tempo, Message_program_change, Message_note_on,
    Message_note_off, check_data_byte.
  cbn [ticksPerBeat tempoMicrosecondsPerBeat pad_program melody_program
       arp_program pad_velocity melody_velocity arp_velocity].
  rewrite Htpb, Htempo, Htempo', Hpp, Hmp, Hap, Hpv, Hmv, Hav.
  eexists _, _, _. split; [vm_compute; reflexivity|].
  split; [vm_compute; reflexivity|]. split; [reflexivity|].
  vm_compute. reflexivity.
Qed.

Lemma X9_build_any_config_witness :
  0 < 96 ∧ 0 < 500000 < 2 ^ 24
  ∧ is_data_byte 0 = true ∧ is_data_byte 1 = true ∧ is_data_byte 2 = true
  ∧ is_data_byte 100 = true ∧ is_data_byte 101 = true
  ∧ is_data_byte 102 = true
  ∧ ∃ mid h f,
      build (mkConfig 96 500000 0 1 2 100 101 102) empty_heap = (Ok mid, h)
      ∧ file_objs h !! mid = Some f
      ∧ ticks_per_beat f = 96.
Proof.
  assert (H1 : 0 < 96) by lia.
  assert (H2 : 0 < 500000 < 2 ^ 24) by (cbn; lia).
  split; [exact H1|]. split; [exact H2|].
  split; [reflexivity|]. split; [reflexivity|]. split; [reflexivity|].
  split; [reflexivity|]. split; [reflexivity|]. split; [reflexivity|].
  destruct (X9_build_any_config (mkConfig 96 500000 0 1 2 100 101 102)
              H1 H2 eq_refl eq_refl eq_refl eq_refl eq_refl eq_refl)
    as (mid & h & f & Hb & Hf & Htpb & _).
  exists mid, h, f. split; [exact Hb|]. split; [exact Hf|exact Htpb].
Defined.
